(** * limlistener: a bandwidth-limited net.Listener

    Shallow embedding of the Go package [limlistener] and the properties
    of its listener registry and of its throttled [Write].

    Conventions of the embedding.
    - Go's [int] is taken as on 64-bit platforms, a 64-bit two's
      complement integer: values are in [Z] and every arithmetic result
      goes through [int_wrap].
    - A [*rlimit.Limiter] is a reference into a store of limiters; the nil
      pointer is [None].  Limiters are created by [rlimit.NewLimiter] and
      their rate is changed in place by [rlimit.SetLimit].
    - The transport ([net.Listener], [net.Conn]) and the blocking
      behaviour of the token buckets are outside the package: their
      answers are inputs of the model (the result of the raw accept, a
      [WriteEnv] for one call of [Write]).
    - A Go runtime panic is the result [Panic] ([Panicked] for [Write]).
      A panic in one of the goroutines of [waitN] kills the process a
      little later, at a moment the scheduler chooses; that choice is
      an input of the model too.
    - The loop of [Write] runs on fuel; [OutOfFuel] says that the loop was
      still running when the fuel ran out. *)

From Stdlib Require Import ZArith Lia.
From Stdlib.Strings Require Import Byte.
From stdpp Require Import base numbers list strings.

(** ** Go basics *)

Definition error : Type := string.

(** Two's complement wrap-around of a 64-bit [int]. *)
Definition int_wrap (z : Z) : Z := ((z + 2 ^ 63) `mod` 2 ^ 64 - 2 ^ 63)%Z.

(** [len(b)] as a Go [int]. *)
Definition len {A : Type} (b : list A) : Z := Z.of_nat (length b).

Inductive Result (A : Type) : Type :=
  | Ok (a : A)
  | Panic.
Arguments Ok {A} a.
Arguments Panic {A}.

(** Handles of the transport layer. *)
Abbreviation RawListener := nat (only parsing).
Abbreviation RawConn := nat (only parsing).

(** ** golang.org/x/time/rate, as far as the package uses it *)

Module rlimit.

(** [rlimit.Limit(i)]: the conversion of an [int] to the limiter's rate
    type, kept symbolic. *)
Inductive Limit : Type :=
  | LimitOf (i : Z).

Record Limiter : Type := mkLimiter { limit : Limit; burst : Z }.

Abbreviation Ref := nat (only parsing).
Abbreviation Store := (list Limiter) (only parsing).

(** [rlimit.NewLimiter(r, b)]: a new object, at the next free address. *)
Definition NewLimiter (r : Limit) (b : Z) (h : Store) : Store * Ref :=
  (h ++ [mkLimiter r b], length h).

Definition with_limit (r : Limit) (l : Limiter) : Limiter :=
  mkLimiter r (burst l).

(** [Limiter.SetLimit(r)] on a non-nil pointer: the rate is replaced in place. *)
Definition SetLimit (p : Ref) (r : Limit) (h : Store) : Store :=
  alter (with_limit r) p h.

(** Whatever limiter is found at [p] has rate [r]. *)
Definition rate_at (r : Limit) (h : Store) (p : Ref) : Prop :=
  forall l, h !! p = Some l -> limit l = r.

End rlimit.

(** ** LimitedConn *)

Module LimitedConn.

Record t : Type := mk {
  id : Z;
  conn : option RawConn;
  globalLimiter : option rlimit.Ref;
  connLimiter : option rlimit.Ref;
  mtu : Z
}.

(** What the outside world answers during one call of [Write]; the
    first argument of each field is the number of the loop iteration.
    - [connWaitN k n], [globalWaitN k n]: the error returned by
      [WaitN(ctx, n)] on the per-connection and on the global limiter;
    - [connFirst k]: whether the goroutine of the per-connection
      limiter is the first to send on the channel [done];
    - [rawWrite k s]: the result of [lc.conn.Write(s)];
    - [dies k]: read only when a limiter of the connection is nil, so
      that a goroutine of [waitN] panics: whether the process is
      already dead when the [k]-th [waitN] would return. *)
Record WriteEnv : Type := mkEnv {
  connWaitN : nat -> Z -> option error;
  globalWaitN : nat -> Z -> option error;
  connFirst : nat -> bool;
  rawWrite : nat -> list byte -> Z * option error;
  dies : nat -> bool
}.

(** [for err := range done { if err != nil { return err } }; return nil] *)
Fixpoint range_done (done : list (option error)) : option error :=
  match done with
  | [] => None
  | Some e :: _ => Some e
  | None :: rest => range_done rest
  end.

(** The channel [done] once both goroutines have sent. *)
Definition done_chan (env : WriteEnv) (k : nat) (n : Z) : list (option error) :=
  if connFirst env k
  then [connWaitN env k n; globalWaitN env k n]
  else [globalWaitN env k n; connWaitN env k n].

(** The channel [done] when a limiter is nil.  The goroutine that calls
    [WaitN] on the nil limiter panics there: it sends nothing, but its
    deferred [wg.Done()] runs, so [done] is still closed once the other
    goroutine, if its limiter is not nil, has sent its result. *)
Definition done_chan_nil (env : WriteEnv) (k : nat) (lc : t) (n : Z)
    : list (option error) :=
  match connLimiter lc, globalLimiter lc with
  | Some _, None => [connWaitN env k n]
  | None, Some _ => [globalWaitN env k n]
  | _, _ => []
  end.

(** [waitN].  With both limiters in place it ranges over the two
    results.  With a nil limiter a goroutine has panicked and the
    runtime is about to kill the process: either the process is dead
    before [waitN] returns ([Panic]), or [waitN] still returns, from
    what reached the channel, and the caller runs on until the process
    dies (a death later in the iteration shows as the [Panic] of the
    next wait; [Write] may even return first). *)
Definition waitN (env : WriteEnv) (k : nat) (lc : t) (n : Z) : Result (option error) :=
  match connLimiter lc, globalLimiter lc with
  | Some _, Some _ => Ok (range_done (done_chan env k n))
  | _, _ =>
    if dies env k then Panic
    else Ok (range_done (done_chan_nil env k lc n))
  end.

(** [s = b; if len(b) > lc.mtu { s = b[:lc.mtu] }]; slicing with a
    negative bound panics. *)
Definition next_chunk (m : Z) (b : list byte) : Result (list byte) :=
  if (m <? len b)%Z
  then if (m <? 0)%Z then Panic else Ok (take (Z.to_nat m) b)
  else Ok b.

Inductive WriteResult : Type :=
  | Returned (n : Z) (err : option error)
  | Panicked
  | OutOfFuel.

(** The loop of [Write].  [k] counts the iterations, [n] and [err] are
    the named results, [sent] lists the slices handed to the raw
    connection so far. *)
Fixpoint Write_loop (env : WriteEnv) (lc : t) (fuel k : nat) (b : list byte)
    (n : Z) (err : option error) (sent : list (list byte))
    : list (list byte) * WriteResult :=
  match fuel with
  | O => (sent, OutOfFuel)
  | S fuel' =>
    if (0 <? len b)%Z then
      match next_chunk (mtu lc) b with
      | Panic => (sent, Panicked)
      | Ok s =>
        let b' := drop (length s) b in
        match waitN env k lc (len s) with
        | Panic => (sent, Panicked)
        | Ok (Some e) => (sent, Returned 0 (Some e))
        | Ok None =>
          match conn lc with
          | None => (sent, Panicked)
          | Some _ =>
            let '(w, werr) := rawWrite env k s in
            match werr with
            | Some e => (sent ++ [s], Returned 0 (Some e))
            | None =>
              Write_loop env lc fuel' (S k) b' (int_wrap (n + w)) None (sent ++ [s])
            end
          end
        end
      end
    else (sent, Returned n err)
  end.

Definition Write (env : WriteEnv) (lc : t) (fuel : nat) (b : list byte)
    : list (list byte) * WriteResult :=
  Write_loop env lc fuel 0 b 0 None [].

(** [SetLimit] has a pointer receiver: it may set the field
    [connLimiter] of the connection it is called on. *)
Definition SetLimit (lim : Z) (lc : t) (h : rlimit.Store) : rlimit.Store * t :=
  match connLimiter lc with
  | None =>
    let '(h1, p) := rlimit.NewLimiter (rlimit.LimitOf lim) (mtu lc) h in
    (rlimit.SetLimit p (rlimit.LimitOf lim) h1,
     mk (id lc) (conn lc) (globalLimiter lc) (Some p) (mtu lc))
  | Some p => (rlimit.SetLimit p (rlimit.LimitOf lim) h, lc)
  end.

(** For the statements about [Write]: the [j]-th chunk of [b] for chunk
    size [m], that is the bytes from offset [j * m], at most [m] of
    them. *)
Definition chunk_at (m : nat) (b : list byte) (j : nat) : list byte :=
  take m (drop (j * m) b).

(** [Close] delegates to the raw connection; on a nil raw connection the
    call is a nil dereference.  [closed] logs the raw connections that
    were closed. *)
Definition Close (lc : t) (closed : list RawConn) : Result (list RawConn) :=
  match conn lc with
  | None => Panic
  | Some c => Ok (closed ++ [c])
  end.

End LimitedConn.

(** A value of interface type [net.Conn], by dynamic type. *)
Inductive NetConn : Type :=
  | NilConn
  | AsLimitedConn (lc : LimitedConn.t)
  | AsLimitedConnPtr (lc : LimitedConn.t)
  | AsRawConn (c : RawConn).

(** ** LimitedListener *)

Module LimitedListener.

Definition defaultMTU : Z := 1024.

Record t : Type := mk {
  n_conns : Z;
  listener : RawListener;
  globalLimiter : option rlimit.Ref;
  connLimit : Z;
  mtu : Z;
  conns : list LimitedConn.t
}.

(** The listener together with the objects it points to. *)
Record World : Type := mkWorld {
  store : rlimit.Store;
  ll : t;
  closed : list RawConn
}.

Definition NewWithListener (l : RawListener) : World :=
  mkWorld [] (mk 0 l None 0 defaultMTU []) [].

(** [for _, conn := range ll.conns { conn.SetLimit(connLimit) }] *)
Fixpoint SetLimits_loop (connLimit : Z) (cs : list LimitedConn.t) (h : rlimit.Store)
    : rlimit.Store * list LimitedConn.t :=
  match cs with
  | [] => (h, [])
  | lc :: rest =>
    let '(h1, lc') := LimitedConn.SetLimit connLimit lc h in
    let '(h2, rest') := SetLimits_loop connLimit rest h1 in
    (h2, lc' :: rest')
  end.

Definition SetLimits (globalLimit connLimit : Z) (w : World) : World :=
  let l := ll w in
  let '(h1, g) :=
    match globalLimiter l with
    | None => rlimit.NewLimiter (rlimit.LimitOf globalLimit) (mtu l) (store w)
    | Some g => (store w, g)
    end in
  let h2 := rlimit.SetLimit g (rlimit.LimitOf globalLimit) h1 in
  let '(h3, cs) := SetLimits_loop connLimit (conns l) h2 in
  mkWorld h3 (mk (n_conns l) (listener l) (Some g) connLimit (mtu l) cs) (closed w).

(** [raw] is what [ll.listener.Accept()] returned. *)
Definition Accept (raw : option RawConn * option error) (w : World)
    : World * (NetConn * option error) :=
  let '(conn, err) := raw in
  let l := ll w in
  let conn_id := n_conns l in
  let n_conns' := int_wrap (n_conns l + 1) in
  let '(h1, p) :=
    rlimit.NewLimiter (rlimit.LimitOf (connLimit l)) (mtu l) (store w) in
  let lconn := LimitedConn.mk conn_id conn (globalLimiter l) (Some p) (mtu l) in
  (mkWorld h1
     (mk n_conns' (listener l) (globalLimiter l) (connLimit l) (mtu l)
         (conns l ++ [lconn]))
     (closed w),
   (AsLimitedConn lconn, err)).

(** [ll.conns[i] = ll.conns[len(ll.conns)-1]; ll.conns = ll.conns[:len(ll.conns)-1]] *)
Definition remove_at (i : nat) (cs : list LimitedConn.t) : list LimitedConn.t :=
  match last cs with
  | Some c => take (length cs - 1) (<[i := c]> cs)
  | None => cs
  end.

(** The loop of [CloseConnection]: [all] is [ll.conns], [rest] what is
    left to range over, [i] the index of its head. *)
Fixpoint CloseConnection_loop (x : Z) (all : list LimitedConn.t) (i : nat)
    (rest : list LimitedConn.t) : list LimitedConn.t :=
  match rest with
  | [] => all
  | c :: rest' =>
    if (LimitedConn.id c =? x)%Z then remove_at i all
    else CloseConnection_loop x all (S i) rest'
  end.

Definition CloseConnection (conn : NetConn) (w : World) : Result World :=
  match conn with
  | AsLimitedConn lconn =>
    match LimitedConn.Close lconn (closed w) with
    | Panic => Panic
    | Ok closed' =>
      let l := ll w in
      let cs := CloseConnection_loop (LimitedConn.id lconn) (conns l) 0 (conns l) in
      Ok (mkWorld (store w)
            (mk (int_wrap (n_conns l - 1)) (listener l) (globalLimiter l)
                (connLimit l) (mtu l) cs)
            closed')
    end
  | _ => Panic
  end.

(** Sequences of calls on one listener. *)
Inductive Op : Type :=
  | OpAccept (raw : option RawConn * option error)
  | OpSetLimits (globalLimit connLimit : Z)
  | OpCloseConnection (conn : NetConn).

Definition step (op : Op) (w : World) : Result World :=
  match op with
  | OpAccept raw => Ok (fst (Accept raw w))
  | OpSetLimits g c => Ok (SetLimits g c w)
  | OpCloseConnection conn => CloseConnection conn w
  end.

Fixpoint run (ops : list Op) (w : World) : Result World :=
  match ops with
  | [] => Ok w
  | op :: rest =>
    match step op w with
    | Ok w' => run rest w'
    | Panic => Panic
    end
  end.

(** The shape of the worlds a listener lives in: its references point
    into the store and no per-connection limiter is the global one. *)
Definition registered (w : World) : Prop :=
  (forall g, globalLimiter (ll w) = Some g -> g < length (store w)) /\
  Forall (fun lc => exists p,
            LimitedConn.connLimiter lc = Some p /\
            p < length (store w) /\
            globalLimiter (ll w) <> Some p)
         (conns (ll w)).

(** Number of [Accept] and of [CloseConnection] calls in a sequence. *)
Fixpoint accepts (ops : list Op) : nat :=
  match ops with
  | [] => 0
  | OpAccept _ :: rest => S (accepts rest)
  | _ :: rest => accepts rest
  end.

Fixpoint closes (ops : list Op) : nat :=
  match ops with
  | [] => 0
  | OpCloseConnection _ :: rest => S (closes rest)
  | _ :: rest => closes rest
  end.

End LimitedListener.

(** ** Sample inputs *)

Module Samples.

(** Every wait and every raw write succeeds. *)
Definition env_ok : LimitedConn.WriteEnv :=
  LimitedConn.mkEnv (fun _ _ => None) (fun _ _ => None) (fun _ => true)
    (fun _ s => (len s, None)) (fun _ => false).

(** The wait on the global limiter fails at iteration [j]. *)
Definition env_cancel (j : nat) : LimitedConn.WriteEnv :=
  LimitedConn.mkEnv (fun _ _ => None)
    (fun k _ => if Nat.eqb k j then Some "context canceled"%string else None)
    (fun _ => false)
    (fun _ s => (len s, None)) (fun _ => false).

(** A connection with chunk size 2. *)
Definition conn2 : LimitedConn.t :=
  LimitedConn.mk 0 (Some 7%nat) (Some 0%nat) (Some 1%nat) 2.

Definition five_bytes : list byte := [x01; x02; x03; x04; x05]%byte.

(** A listener after [Accept], [SetLimits(10, 5)], [Accept]. *)
Definition two_conns : LimitedListener.World :=
  (LimitedListener.Accept (Some 8%nat, None)
     (LimitedListener.SetLimits 10 5
        (LimitedListener.Accept (Some 7%nat, None)
           (LimitedListener.NewWithListener 0)).1)).1.

End Samples.

(** * Properties *)

Import LimitedListener.

(** ** Integer arithmetic *)

Lemma int_wrap_small (z : Z) : (- 2 ^ 63 <= z < 2 ^ 63)%Z -> int_wrap z = z.
Proof.
  intros Hz. unfold int_wrap.
  rewrite Z.mod_small; lia.
Qed.

Lemma int_wrap_add_l (a b : Z) : int_wrap (int_wrap a + b) = int_wrap (a + b).
Proof.
  unfold int_wrap.
  replace ((a + 2 ^ 63) `mod` 2 ^ 64 - 2 ^ 63 + b + 2 ^ 63)%Z
    with ((a + 2 ^ 63) `mod` 2 ^ 64 + b)%Z by lia.
  rewrite Zplus_mod_idemp_l.
  f_equal. f_equal. lia.
Qed.

(** ** Accept *)

(** C1 (the code departs from the claim).  [Accept] does not look at the
    error of the raw accept: it returns that error unchanged, but it has
    then already taken the next identity, incremented the counter and
    appended an entry (around a nil raw connection when the transport
    returned none) to the registry. *)
Theorem Accept_raw_failure_still_registers
    (w : World) (conn : option RawConn) (e : error) :
  let r := Accept (conn, Some e) w in
  snd (snd r) = Some e /\
  n_conns (ll (fst r)) = int_wrap (n_conns (ll w) + 1) /\
  conns (ll (fst r)) =
    conns (ll w) ++
      [LimitedConn.mk (n_conns (ll w)) conn (globalLimiter (ll w))
         (Some (length (store w))) (mtu (ll w))] /\
  fst r <> w.
Proof.
  cbn. repeat split.
  intros Heq. apply (f_equal (fun x => length (conns (ll x)))) in Heq.
  cbn in Heq. rewrite length_app in Heq. cbn in Heq. lia.
Qed.

Example Accept_raw_failure_on_new_listener :
  Accept (None, Some "accept tcp: use of closed network connection"%string)
         (NewWithListener 0)
  = (mkWorld [rlimit.mkLimiter (rlimit.LimitOf 0) 1024]
       (mk 1 0 None 0 1024 [LimitedConn.mk 0 None None (Some 0%nat) 1024]) [],
     (AsLimitedConn (LimitedConn.mk 0 None None (Some 0%nat) 1024),
      Some "accept tcp: use of closed network connection"%string)).
Proof. reflexivity. Qed.

(** ** The global limiter of registered connections *)

(** [SetLimits] keeps a global limiter that exists. *)
Lemma SetLimits_keeps_globalLimiter (g c : Z) (w : World) (p : rlimit.Ref) :
  globalLimiter (ll w) = Some p ->
  globalLimiter (ll (SetLimits g c w)) = Some p.
Proof.
  intros Hp. unfold SetLimits. rewrite Hp.
  destruct (SetLimits_loop c (conns (ll w)) _) as [h3 cs]. reflexivity.
Qed.

(** C3 (the code departs from the claim).  A connection accepted before
    the first [SetLimits] was built with a nil global limiter; [SetLimits]
    then creates the listener's global limiter but the registered
    connection keeps its nil reference. *)
Theorem conn_accepted_before_SetLimits_has_no_global
    (l : RawListener) (raw : option RawConn * option error) (g c : Z) :
  let w1 := fst (Accept raw (NewWithListener l)) in
  let w2 := SetLimits g c w1 in
  globalLimiter (ll w2) = Some 1%nat /\
  map LimitedConn.globalLimiter (conns (ll w2)) = [None] /\
  forall g' c', map LimitedConn.globalLimiter (conns (ll (SetLimits g' c' w2))) = [None].
Proof.
  destruct raw as [conn err]. cbn. auto.
Qed.

(** ** The connection counter and the identities *)

Lemma SetLimit_fields (c : Z) (lc : LimitedConn.t) (h : rlimit.Store) :
  let lc' := snd (LimitedConn.SetLimit c lc h) in
  LimitedConn.id lc' = LimitedConn.id lc /\
  LimitedConn.conn lc' = LimitedConn.conn lc /\
  LimitedConn.globalLimiter lc' = LimitedConn.globalLimiter lc /\
  LimitedConn.mtu lc' = LimitedConn.mtu lc.
Proof.
  unfold LimitedConn.SetLimit. destruct (LimitedConn.connLimiter lc); cbn; auto.
Qed.

Lemma SetLimits_loop_ids (c : Z) (cs : list LimitedConn.t) (h : rlimit.Store) :
  LimitedConn.id <$> (SetLimits_loop c cs h).2 = LimitedConn.id <$> cs.
Proof.
  revert h. induction cs as [|lc cs IH]; intros h; [reflexivity|].
  cbn [SetLimits_loop].
  pose proof (SetLimit_fields c lc h) as (Hid & _).
  destruct (LimitedConn.SetLimit c lc h) as [h1 lc'].
  specialize (IH h1). destruct (SetLimits_loop c cs h1) as [h2 rest'].
  cbn in *. congruence.
Qed.

Lemma SetLimits_ids (g c : Z) (w : World) :
  LimitedConn.id <$> conns (ll (SetLimits g c w)) = LimitedConn.id <$> conns (ll w).
Proof.
  unfold SetLimits.
  destruct (match globalLimiter (ll w) with
            | Some g0 => _ | None => _ end) as [h1 p].
  pose proof (SetLimits_loop_ids c (conns (ll w))
                (rlimit.SetLimit p (rlimit.LimitOf g) h1)) as Hids.
  destruct (SetLimits_loop c (conns (ll w)) _) as [h3 cs]. exact Hids.
Qed.

Lemma SetLimits_n_conns (g c : Z) (w : World) :
  n_conns (ll (SetLimits g c w)) = n_conns (ll w).
Proof.
  unfold SetLimits.
  destruct (match globalLimiter (ll w) with
            | Some g0 => _ | None => _ end) as [h1 p].
  destruct (SetLimits_loop c (conns (ll w)) _) as [h3 cs]. reflexivity.
Qed.

Lemma CloseConnection_n_conns (conn : NetConn) (w w' : World) :
  CloseConnection conn w = Ok w' ->
  n_conns (ll w') = int_wrap (n_conns (ll w) - 1).
Proof.
  unfold CloseConnection. destruct conn as [|lc|lc|rc]; try discriminate.
  destruct (LimitedConn.Close lc (closed w)); [|discriminate].
  intros [= <-]. reflexivity.
Qed.

Lemma run_n_conns (ops : list Op) (w w' : World) (a : Z) :
  run ops w = Ok w' ->
  n_conns (ll w) = int_wrap a ->
  n_conns (ll w') = int_wrap (a + Z.of_nat (accepts ops) - Z.of_nat (closes ops)).
Proof.
  revert w a. induction ops as [|op ops IH]; intros w a Hrun Ha.
  - cbn in *. injection Hrun as <-. rewrite Ha. f_equal. lia.
  - cbn [run] in Hrun. destruct op as [raw|g c|conn]; cbn [step] in Hrun.
    + destruct raw as [rc err]. cbn [accepts closes].
      eapply IH with (a := (a + 1)%Z) in Hrun.
      * rewrite Hrun. f_equal. lia.
      * cbn. rewrite Ha. apply int_wrap_add_l.
    + cbn [accepts closes]. eapply IH in Hrun; [exact Hrun|].
      rewrite SetLimits_n_conns. exact Ha.
    + destruct (CloseConnection conn w) as [w1|] eqn:Hc; [|discriminate].
      cbn [accepts closes].
      eapply IH with (a := (a - 1)%Z) in Hrun.
      * rewrite Hrun. f_equal. lia.
      * rewrite (CloseConnection_n_conns _ _ _ Hc), Ha.
        replace (int_wrap a - 1)%Z with (int_wrap a + (-1))%Z by lia.
        rewrite int_wrap_add_l. f_equal.
Qed.

Lemma run_accept_ids (ops : list Op) (w w' : World) (a : Z) :
  run ops w = Ok w' ->
  closes ops = 0%nat ->
  n_conns (ll w) = int_wrap a ->
  LimitedConn.id <$> conns (ll w') =
    (LimitedConn.id <$> conns (ll w)) ++
    ((fun i : nat => int_wrap (a + Z.of_nat i)) <$> seq 0 (accepts ops)).
Proof.
  revert w a. induction ops as [|op ops IH]; intros w a Hrun Hcl Ha.
  - cbn in *. injection Hrun as <-. by rewrite app_nil_r.
  - cbn [run] in Hrun. destruct op as [raw|g c|conn]; cbn [step] in Hrun;
      cbn [accepts closes] in *; [| |discriminate].
    + destruct raw as [rc err].
      eapply IH with (a := (a + 1)%Z) in Hrun; [|exact Hcl|].
      * rewrite Hrun. cbn. rewrite fmap_app, <- app_assoc. cbn.
        f_equal. rewrite Ha. f_equal; [f_equal; lia|].
        rewrite <- fmap_S_seq, <- list_fmap_compose.
        apply list_fmap_ext. intros _ i _. cbn. f_equal. lia.
      * cbn. rewrite Ha. apply int_wrap_add_l.
    + eapply IH in Hrun; [|exact Hcl|rewrite SetLimits_n_conns; exact Ha].
      rewrite Hrun, SetLimits_ids. reflexivity.
Qed.

(** What the counter holds after calls that did not panic: the number
    of [Accept] calls minus the number of [CloseConnection] calls (as a
    64-bit integer).  As long as no [CloseConnection] was made, the
    identities in the registry are [0, 1, 2, ...]. *)
Theorem counter_is_accepts_minus_closes
    (l : RawListener) (ops : list Op) (w : World) :
  run ops (NewWithListener l) = Ok w ->
  n_conns (ll w) = int_wrap (Z.of_nat (accepts ops) - Z.of_nat (closes ops)) /\
  (closes ops = 0%nat -> (Z.of_nat (accepts ops) < 2 ^ 63)%Z ->
     n_conns (ll w) = Z.of_nat (accepts ops) /\
     (forall pre post w0,
        ops = pre ++ post -> run pre (NewWithListener l) = Ok w0 ->
        (n_conns (ll w0) <= n_conns (ll w))%Z) /\
     LimitedConn.id <$> conns (ll w) = Z.of_nat <$> seq 0 (accepts ops) /\
     NoDup (LimitedConn.id <$> conns (ll w))).
Proof.
  intros Hrun.
  assert (Hn : forall ops' w', run ops' (NewWithListener l) = Ok w' ->
            n_conns (ll w') =
              int_wrap (Z.of_nat (accepts ops') - Z.of_nat (closes ops'))).
  { intros ops' w' H. rewrite (run_n_conns _ _ _ 0%Z H); [f_equal; lia|reflexivity]. }
  split; [by apply Hn|].
  intros Hcl Hacc.
  assert (Hsplit : forall pre post, accepts (pre ++ post) = (accepts pre + accepts post)%nat
                              /\ closes (pre ++ post) = (closes pre + closes post)%nat).
  { intros pre post. induction pre as [|[?|? ?|?] pre [IHa IHc]]; cbn; lia. }
  split; [|split; [|split]].
  - rewrite (Hn _ _ Hrun), Hcl, int_wrap_small; lia.
  - intros pre post w0 -> Hpre.
    destruct (Hsplit pre post) as [Ha Hc].
    rewrite (Hn _ _ Hrun), (Hn _ _ Hpre).
    rewrite !int_wrap_small; lia.
  - rewrite (run_accept_ids _ _ _ 0%Z Hrun Hcl eq_refl). cbn.
    apply list_fmap_ext. intros k i Hi%lookup_seq. cbn.
    apply int_wrap_small. lia.
  - rewrite (run_accept_ids _ _ _ 0%Z Hrun Hcl eq_refl). cbn.
    apply NoDup_fmap_2_strong; [|apply NoDup_seq].
    intros i j Hi%elem_of_seq Hj%elem_of_seq Heq.
    rewrite !int_wrap_small in Heq; lia.
Qed.

Lemma counter_is_accepts_minus_closes_witness :
  exists w,
    run [OpAccept (Some 7%nat, None); OpSetLimits 10 5; OpAccept (Some 8%nat, None)]
        (NewWithListener 0) = Ok w /\
    n_conns (ll w) = 2%Z /\
    LimitedConn.id <$> conns (ll w) = [0; 1]%Z.
Proof.
  eexists. split; [reflexivity|].
  destruct (counter_is_accepts_minus_closes 0
              [OpAccept (Some 7%nat, None); OpSetLimits 10 5; OpAccept (Some 8%nat, None)]
              _ eq_refl) as [_ H].
  destruct (H eq_refl) as (Hn & _ & Hids & _); [cbn; lia|].
  split; [exact Hn|exact Hids].
Defined.

(** C2 (the code departs from the claim).  The identity of a connection
    is the value of the counter, and [CloseConnection] decrements the
    counter: after two [Accept]s and the close of the first connection
    the counter is back at 1, and the next [Accept] hands out identity 1
    again, so that two registered connections carry the same identity.
    [CloseConnection] finds its entry by identity: closing the newest
    connection then removes the entry of the older one, which is still
    open, and leaves the closed one registered. *)
Theorem counter_decreases_and_identity_is_reused :
  let a := LimitedConn.mk 0 (Some 7%nat) None (Some 0%nat) 1024 in
  let b := LimitedConn.mk 1 (Some 8%nat) None (Some 1%nat) 1024 in
  let c := LimitedConn.mk 1 (Some 9%nat) None (Some 2%nat) 1024 in
  exists w1 w2 w3 w4 w5,
    Accept (Some 7%nat, None) (NewWithListener 0) = (w1, (AsLimitedConn a, None)) /\
    Accept (Some 8%nat, None) w1 = (w2, (AsLimitedConn b, None)) /\
    CloseConnection (AsLimitedConn a) w2 = Ok w3 /\
    Accept (Some 9%nat, None) w3 = (w4, (AsLimitedConn c, None)) /\
    CloseConnection (AsLimitedConn c) w4 = Ok w5 /\
    n_conns (ll w2) = 2%Z /\ n_conns (ll w3) = 1%Z /\
    (n_conns (ll w3) < n_conns (ll w2))%Z /\
    conns (ll w4) = [b; c] /\
    LimitedConn.id <$> conns (ll w4) = [1; 1]%Z /\
    ~ NoDup (LimitedConn.id <$> conns (ll w4)) /\
    conns (ll w5) = [c] /\
    closed w5 = [7%nat; 9%nat].
Proof.
  cbn zeta. do 5 eexists.
  repeat (split; [reflexivity|]).
  split; [|split; [reflexivity|reflexivity]].
  cbn. intros Hnd. apply NoDup_cons in Hnd as [Hnot _].
  apply Hnot. left.
Qed.

(** ** CloseConnection *)

Lemma CloseConnection_loop_no_match (x : Z) (all rest : list LimitedConn.t) (i : nat) :
  Forall (fun c => LimitedConn.id c <> x) rest ->
  CloseConnection_loop x all i rest = all.
Proof.
  intros H. revert i. induction H as [|c rest Hc _ IH]; intros i; [reflexivity|].
  cbn. destruct (Z.eqb_spec (LimitedConn.id c) x); [contradiction|]. apply IH.
Qed.

(** C10.  The assertion [conn.(LimitedConn)] is unchecked: an argument of
    any other dynamic type makes [CloseConnection] panic; and for a
    [LimitedConn] whose identity is not in the registry the counter is
    decremented all the same, the registry staying as it was. *)
Theorem CloseConnection_unchecked (conn : NetConn) (w : World) :
  ((forall lc, conn <> AsLimitedConn lc) -> CloseConnection conn w = Panic) /\
  (forall lc rc,
     conn = AsLimitedConn lc ->
     LimitedConn.conn lc = Some rc ->
     Forall (fun c => LimitedConn.id c <> LimitedConn.id lc) (conns (ll w)) ->
     exists w',
       CloseConnection conn w = Ok w' /\
       n_conns (ll w') = int_wrap (n_conns (ll w) - 1) /\
       conns (ll w') = conns (ll w)).
Proof.
  split.
  - intros Hdyn. destruct conn as [|lc|lc|rc]; try reflexivity.
    by destruct (Hdyn lc).
  - intros lc rc -> Hraw Hno.
    unfold CloseConnection, LimitedConn.Close. rewrite Hraw.
    eexists. split; [reflexivity|]. cbn.
    split; [reflexivity|]. by apply CloseConnection_loop_no_match.
Qed.

Lemma CloseConnection_unchecked_witness :
  CloseConnection (AsRawConn 3) (NewWithListener 0) = Panic /\
  CloseConnection (AsLimitedConnPtr (LimitedConn.mk 0 (Some 3%nat) None None 1024))
                  (NewWithListener 0) = Panic /\
  exists w',
    CloseConnection (AsLimitedConn (LimitedConn.mk 5 (Some 3%nat) None None 1024))
                    (NewWithListener 0) = Ok w' /\
    n_conns (ll w') = (-1)%Z /\ conns (ll w') = [].
Proof.
  split; [|split].
  - apply (CloseConnection_unchecked (AsRawConn 3) (NewWithListener 0)).
    intros lc; discriminate.
  - apply (CloseConnection_unchecked
             (AsLimitedConnPtr (LimitedConn.mk 0 (Some 3%nat) None None 1024))
             (NewWithListener 0)).
    intros lc; discriminate.
  - destruct (CloseConnection_unchecked
                (AsLimitedConn (LimitedConn.mk 5 (Some 3%nat) None None 1024))
                (NewWithListener 0)) as [_ H].
    destruct (H _ 3%nat eq_refl eq_refl (Forall_nil_2 _)) as (w' & Hok & Hn & Hcs).
    exists w'. split; [exact Hok|]. split; [exact Hn|exact Hcs].
Defined.

(** ** The limiter store *)

Lemma with_limit_id (r : rlimit.Limit) (l : rlimit.Limiter) :
  rlimit.limit l = r -> rlimit.with_limit r l = l.
Proof. destruct l as [r' b]. cbn. by intros ->. Qed.

Lemma rlimit_SetLimit_rate_at (p : rlimit.Ref) (r : rlimit.Limit) (h : rlimit.Store) :
  rlimit.rate_at r (rlimit.SetLimit p r h) p.
Proof.
  intros l. unfold rlimit.SetLimit. rewrite list_lookup_alter_eq.
  destruct (h !! p); cbn; [|done]. by intros [= <-].
Qed.

Lemma rlimit_SetLimit_rate_at_other (p q : rlimit.Ref) (r : rlimit.Limit) (h : rlimit.Store) :
  rlimit.rate_at r h q -> rlimit.rate_at r (rlimit.SetLimit p r h) q.
Proof.
  intros Hq. destruct (decide (p = q)) as [->|Hne].
  - apply rlimit_SetLimit_rate_at.
  - intros l. unfold rlimit.SetLimit. rewrite list_lookup_alter_ne by done. apply Hq.
Qed.

Lemma rlimit_SetLimit_burst (p q : rlimit.Ref) (r : rlimit.Limit) (h : rlimit.Store) :
  rlimit.burst <$> rlimit.SetLimit p r h !! q = rlimit.burst <$> h !! q.
Proof.
  unfold rlimit.SetLimit. destruct (decide (p = q)) as [->|Hne].
  - rewrite list_lookup_alter_eq. by destruct (h !! q).
  - by rewrite list_lookup_alter_ne.
Qed.

(** One call of [LimitedConn.SetLimit]: afterwards the connection has a
    limiter [q] of rate [c]; rates [c] elsewhere stay, limiters other
    than [q] are untouched and the limiters that existed keep their
    burst. *)
Lemma SetLimit_step (c : Z) (lc : LimitedConn.t) (h : rlimit.Store) :
  let r := LimitedConn.SetLimit c lc h in
  exists q,
    LimitedConn.connLimiter r.2 = Some q /\
    rlimit.rate_at (rlimit.LimitOf c) r.1 q /\
    (forall p, rlimit.rate_at (rlimit.LimitOf c) h p ->
               rlimit.rate_at (rlimit.LimitOf c) r.1 p) /\
    (forall p, p <> q -> r.1 !! p = h !! p) /\
    (forall p, p < length h -> rlimit.burst <$> r.1 !! p = rlimit.burst <$> h !! p) /\
    length h <= length r.1 /\
    (forall q', LimitedConn.connLimiter lc = Some q' ->
                q = q' /\ r.2 = lc /\ length r.1 = length h).
Proof.
  unfold LimitedConn.SetLimit.
  destruct (LimitedConn.connLimiter lc) as [q|] eqn:Hq; cbn.
  - exists q. split; [done|]. split; [apply rlimit_SetLimit_rate_at|].
    split; [intros p; apply rlimit_SetLimit_rate_at_other|].
    split; [intros p Hne; unfold rlimit.SetLimit; by rewrite list_lookup_alter_ne|].
    split; [intros p _; apply rlimit_SetLimit_burst|].
    unfold rlimit.SetLimit. rewrite length_alter.
    split; [lia|]. by intros q' [= <-].
  - exists (length h). split; [done|].
    split; [apply rlimit_SetLimit_rate_at|].
    split.
    { intros p Hp. apply rlimit_SetLimit_rate_at_other.
      intros l. destruct (decide (p < length h)) as [Hlt|Hge].
      - rewrite lookup_app_l by done. apply Hp.
      - rewrite lookup_app_r by lia.
        destruct (p - length h) as [|k]; cbn; [by intros [= <-]|done]. }
    split.
    { intros p Hne. unfold rlimit.SetLimit. rewrite list_lookup_alter_ne by done.
      destruct (decide (p < length h)) as [Hlt|Hge].
      - by rewrite lookup_app_l.
      - rewrite lookup_app_r by lia.
        destruct (p - length h) as [|k] eqn:Hk; [lia|].
        cbn. symmetry. apply lookup_ge_None. lia. }
    split.
    { intros p Hlt. rewrite rlimit_SetLimit_burst. by rewrite lookup_app_l. }
    unfold rlimit.SetLimit. rewrite length_alter, length_app. cbn.
    split; [lia|]. intros q' [=].
Qed.

(** The loop of [SetLimits] over the registry, from any store. *)
Lemma SetLimits_loop_spec (c : Z) (cs : list LimitedConn.t) (h : rlimit.Store) :
  let r := SetLimits_loop c cs h in
  Forall (fun lc => exists q, LimitedConn.connLimiter lc = Some q /\
                              rlimit.rate_at (rlimit.LimitOf c) r.1 q) r.2 /\
  (forall p, rlimit.rate_at (rlimit.LimitOf c) h p ->
             rlimit.rate_at (rlimit.LimitOf c) r.1 p) /\
  (forall p, Some p ∉ LimitedConn.connLimiter <$> r.2 -> r.1 !! p = h !! p) /\
  (forall p, p < length h -> rlimit.burst <$> r.1 !! p = rlimit.burst <$> h !! p) /\
  length h <= length r.1 /\
  (Forall (fun lc => is_Some (LimitedConn.connLimiter lc)) cs ->
   r.2 = cs /\ length r.1 = length h).
Proof.
  revert h. induction cs as [|lc cs IH]; intros h.
  { cbn. repeat split; auto. }
  cbn [SetLimits_loop].
  destruct (SetLimit_step c lc h) as (q & Hq & Hrate & Hkeep & Hother & Hburst & Hlen & Hsome).
  destruct (LimitedConn.SetLimit c lc h) as [h1 lc'].
  specialize (IH h1).
  destruct (SetLimits_loop c cs h1) as [h2 rest'].
  cbn [fst snd] in *.
  destruct IH as (IH1 & IH2 & IH3 & IH4 & IH5 & IH6).
  split; [|split; [|split; [|split; [|split]]]].
  - constructor; [|exact IH1]. exists q. split; [exact Hq|]. by apply IH2.
  - intros p Hp. by apply IH2, Hkeep.
  - intros p Hp. rewrite fmap_cons, not_elem_of_cons, Hq in Hp.
    destruct Hp as [Hne Hp]. rewrite IH3 by exact Hp.
    apply Hother. congruence.
  - intros p Hp. rewrite IH4 by lia. by apply Hburst.
  - lia.
  - intros Hall. apply Forall_cons in Hall as [[q' Hq'] Hall].
    destruct (Hsome q' Hq') as (_ & -> & Hl).
    destruct (IH6 Hall) as [-> Hl']. split; [done|lia].
Qed.

(** Running the loop from a store that differs from [h] only in the
    rates of the registered limiters, which all have rate [c] in [h],
    gives [h] back. *)
Lemma SetLimits_loop_restores (c : Z) (cs : list LimitedConn.t) (h h0 : rlimit.Store) :
  Forall (fun lc => exists q, LimitedConn.connLimiter lc = Some q /\
                              rlimit.rate_at (rlimit.LimitOf c) h q) cs ->
  (forall p, Some p ∉ LimitedConn.connLimiter <$> cs -> h0 !! p = h !! p) ->
  (forall p, rlimit.burst <$> h0 !! p = rlimit.burst <$> h !! p) ->
  SetLimits_loop c cs h0 = (h, cs).
Proof.
  intros Hcs. revert h0. induction Hcs as [|lc cs (q & Hq & Hrate) _ IH]; intros h0 Hout Hburst.
  { cbn. f_equal. apply list_eq. intros p. apply Hout. cbn. apply not_elem_of_nil. }
  cbn [SetLimits_loop]. unfold LimitedConn.SetLimit. rewrite Hq.
  rewrite (IH (rlimit.SetLimit q (rlimit.LimitOf c) h0)); [done| |].
  - intros p Hp. unfold rlimit.SetLimit.
    destruct (decide (q = p)) as [->|Hne].
    + rewrite list_lookup_alter_eq.
      specialize (Hburst p). specialize (Hrate).
      destruct (h0 !! p) as [l0|], (h !! p) as [l|] eqn:Hl; cbn in *; try done.
      f_equal. injection Hburst as Hb.
      rewrite <- (with_limit_id (rlimit.LimitOf c) l) by (by apply Hrate).
      unfold rlimit.with_limit. by rewrite Hb.
    + rewrite list_lookup_alter_ne by done. apply Hout.
      rewrite fmap_cons, not_elem_of_cons, Hq. split; [congruence|done].
  - intros p. by rewrite rlimit_SetLimit_burst.
Qed.

(** C9.  [SetLimits] is idempotent: a second call with the same rates
    gives back the very same world (listener, store of limiters, log). *)
Theorem SetLimits_idempotent (g c : Z) (w : World) :
  SetLimits g c (SetLimits g c w) = SetLimits g c w.
Proof.
  unfold SetLimits at 2 3.
  destruct (match globalLimiter (ll w) with
            | Some g0 => _ | None => _ end) as [h1 p].
  pose proof (SetLimits_loop_spec c (conns (ll w))
                (rlimit.SetLimit p (rlimit.LimitOf g) h1))
    as (Hrefs & _ & Hother & _ & _ & _).
  destruct (SetLimits_loop c (conns (ll w)) _) as [h3 cs].
  cbn [fst snd] in *.
  unfold SetLimits. cbn [ll globalLimiter store conns n_conns listener mtu closed].
  rewrite (SetLimits_loop_restores c cs h3); [done|exact Hrefs| |].
  - intros q Hq. unfold rlimit.SetLimit.
    destruct (decide (p = q)) as [->|Hne]; [|by rewrite list_lookup_alter_ne].
    rewrite list_lookup_alter_eq.
    destruct (h3 !! q) as [l|] eqn:Hl; [|done]. cbn. f_equal.
    apply with_limit_id.
    rewrite (Hother q Hq) in Hl.
    exact (rlimit_SetLimit_rate_at q (rlimit.LimitOf g) h1 l Hl).
  - intros q. apply rlimit_SetLimit_burst.
Qed.

(** ** SetLimits *)

(** The body of [SetLimits] once the global limiter [p] is there: [h0] is
    the store at the call, [h1] the store with the global limiter. *)
Lemma SetLimits_body (g c : Z) (cs : list LimitedConn.t) (h0 h1 : rlimit.Store)
    (p : rlimit.Ref) :
  length h0 <= length h1 ->
  (forall q, q < length h0 -> h1 !! q = h0 !! q) ->
  Forall (fun lc => exists q, LimitedConn.connLimiter lc = Some q /\
                              q < length h0 /\ q <> p) cs ->
  let r := SetLimits_loop c cs (rlimit.SetLimit p (rlimit.LimitOf g) h1) in
  r.2 = cs /\
  length r.1 = length h1 /\
  r.1 !! p = rlimit.with_limit (rlimit.LimitOf g) <$> h1 !! p /\
  Forall (fun lc => exists q old,
            LimitedConn.connLimiter lc = Some q /\
            h0 !! q = Some old /\
            r.1 !! q = Some (rlimit.mkLimiter (rlimit.LimitOf c) (rlimit.burst old)))
         cs /\
  (forall q, q <> p -> Some q ∉ LimitedConn.connLimiter <$> cs -> r.1 !! q = h1 !! q) /\
  (forall q, q < length h0 -> rlimit.burst <$> r.1 !! q = rlimit.burst <$> h0 !! q).
Proof.
  intros Hlen Hsame Hrefs.
  assert (Hnotin : Some p ∉ LimitedConn.connLimiter <$> cs).
  { intros (lc & Heq & Hin)%list_elem_of_fmap.
    rewrite Forall_forall in Hrefs. destruct (Hrefs lc Hin) as (q & Hq & _ & Hne).
    congruence. }
  assert (Hsome : Forall (fun lc => is_Some (LimitedConn.connLimiter lc)) cs).
  { eapply Forall_impl; [exact Hrefs|]. cbn. intros lc (q & -> & _). by eexists. }
  pose proof (SetLimits_loop_spec c cs (rlimit.SetLimit p (rlimit.LimitOf g) h1))
    as (Hrate & _ & Hother & Hburst & _ & Hfix).
  destruct (Hfix Hsome) as [Hcs' Hlen3]. clear Hfix.
  destruct (SetLimits_loop c cs _) as [h3 cs'].
  cbn [fst snd] in *. subst cs'.
  unfold rlimit.SetLimit in Hlen3. rewrite length_alter in Hlen3.
  assert (Hb : forall q, q < length h0 ->
                 rlimit.burst <$> h3 !! q = rlimit.burst <$> h0 !! q).
  { intros q Hq. rewrite Hburst by (unfold rlimit.SetLimit; rewrite length_alter; lia).
    rewrite rlimit_SetLimit_burst. by rewrite Hsame. }
  split; [done|]. split; [done|]. split; [|split; [|split; [|done]]].
  - rewrite (Hother p Hnotin). unfold rlimit.SetLimit. apply list_lookup_alter_eq.
  - rewrite Forall_forall in Hrefs, Hrate. apply Forall_forall. intros lc Hin.
    destruct (Hrefs lc Hin) as (q & Hq & Hlt & Hne).
    destruct (Hrate lc Hin) as (q' & Hq' & Hr).
    assert (q' = q) as -> by congruence.
    destruct (lookup_lt_is_Some_2 h0 q Hlt) as [old Hold].
    exists q, old. split; [done|]. split; [done|].
    specialize (Hb q Hlt). rewrite Hold in Hb.
    destruct (h3 !! q) as [l|] eqn:Hl; [|done].
    injection Hb as Hb. specialize (Hr l Hl).
    destruct l as [r b]. cbn in *. by subst.
  - intros q Hne Hq. rewrite (Hother q Hq). unfold rlimit.SetLimit.
    by rewrite list_lookup_alter_ne.
Qed.

(** What one call of [SetLimits] does to a registered world. *)
Lemma SetLimits_effect (g c : Z) (w : World) :
  registered w ->
  let w' := SetLimits g c w in
  match globalLimiter (ll w) with
  | None =>
      globalLimiter (ll w') = Some (length (store w)) /\
      store w' !! length (store w) =
        Some (rlimit.mkLimiter (rlimit.LimitOf g) (mtu (ll w))) /\
      length (store w') = S (length (store w))
  | Some p =>
      globalLimiter (ll w') = Some p /\
      (exists old, store w !! p = Some old /\
         store w' !! p = Some (rlimit.mkLimiter (rlimit.LimitOf g) (rlimit.burst old))) /\
      length (store w') = length (store w)
  end /\
  connLimit (ll w') = c /\
  Forall (fun lc => exists p old,
            LimitedConn.connLimiter lc = Some p /\
            store w !! p = Some old /\
            store w' !! p =
              Some (rlimit.mkLimiter (rlimit.LimitOf c) (rlimit.burst old)))
         (conns (ll w')) /\
  (n_conns (ll w') = n_conns (ll w) /\ listener (ll w') = listener (ll w) /\
   mtu (ll w') = mtu (ll w) /\ conns (ll w') = conns (ll w) /\
   closed w' = closed w) /\
  (forall p, globalLimiter (ll w') <> Some p ->
             Some p ∉ LimitedConn.connLimiter <$> conns (ll w) ->
             store w' !! p = store w !! p) /\
  (forall p, p < length (store w) ->
             rlimit.burst <$> store w' !! p = rlimit.burst <$> store w !! p) /\
  registered w'.
Proof.
  intros [Hg Hcs]. unfold SetLimits.
  destruct (globalLimiter (ll w)) as [p|] eqn:Hp.
  - pose proof (SetLimits_body g c (conns (ll w)) (store w) (store w) p) as Hbody.
    destruct Hbody as (Hcs' & Hlen & Hglob & Hconns & Hother & Hburst);
      [lia|done| |].
    { eapply Forall_impl; [exact Hcs|]. cbn. intros lc (q & ? & ? & ?).
      exists q. repeat split; [done..|congruence]. }
    destruct (SetLimits_loop c (conns (ll w)) _) as [h3 cs].
    cbn [fst snd] in *. subst cs. cbn.
    destruct (lookup_lt_is_Some_2 (store w) p (Hg p eq_refl)) as [old Hold].
    rewrite Hold in Hglob.
    split; [split; [done|split; [by exists old|done]]|].
    split; [done|]. split; [done|]. split; [done|].
    split; [intros q Hq; apply Hother; congruence|].
    split; [done|]. split; cbn.
    + intros ? [= <-]. rewrite Hlen. by apply Hg.
    + eapply Forall_impl; [exact Hcs|]. cbn. intros lc (q & ? & ? & ?).
      exists q. rewrite Hlen. done.
  - pose proof (SetLimits_body g c (conns (ll w)) (store w)
                  (store w ++ [rlimit.mkLimiter (rlimit.LimitOf g) (mtu (ll w))])
                  (length (store w))) as Hbody.
    destruct Hbody as (Hcs' & Hlen & Hglob & Hconns & Hother & Hburst).
    { rewrite length_app. lia. }
    { intros q Hq. by rewrite lookup_app_l. }
    { eapply Forall_impl; [exact Hcs|]. cbn. intros lc (q & ? & ? & ?).
      exists q. repeat split; [done..|lia]. }
    cbn [rlimit.NewLimiter].
    destruct (SetLimits_loop c (conns (ll w)) _) as [h3 cs].
    cbn [fst snd] in *. subst cs. cbn.
    rewrite length_app in Hlen. cbn in Hlen.
    rewrite list_lookup_middle in Hglob by done. cbn in Hglob.
    split; [split; [done|split; [done|lia]]|].
    split; [done|]. split; [done|]. split; [done|].
    split.
    { intros q Hq Hnot. rewrite Hother; [|congruence|done].
      destruct (decide (q < length (store w))) as [Hlt|Hge].
      - by rewrite lookup_app_l.
      - rewrite lookup_app_r by lia.
        destruct (q - length (store w)) as [|k] eqn:Hk.
        + exfalso. apply Hq. f_equal. lia.
        + cbn. symmetry. apply lookup_ge_None. lia. }
    split; [done|]. split; cbn.
    + intros ? [= <-]. lia.
    + eapply Forall_impl; [exact Hcs|]. cbn. intros lc (q & ? & ? & ?).
      exists q. repeat split; [done|lia|intros [= Heq]; lia].
Qed.

(** C7.  [SetLimits globalRate perConnRate] creates the global limiter
    (rate [globalRate], burst the chunk size) when there is none, and
    otherwise sets the rate of the existing one, keeping its burst; it
    records [perConnRate]; it sets the rate of the limiter of every
    registered connection to [perConnRate]; it returns normally (it is a
    total function) and changes nothing else: counter, raw listener,
    chunk size, registry and close log are as before, every other
    limiter is untouched and no burst changes. *)
Theorem SetLimits_spec (g c : Z) (w : World) :
  registered w ->
  let w' := SetLimits g c w in
  match globalLimiter (ll w) with
  | None =>
      globalLimiter (ll w') = Some (length (store w)) /\
      store w' !! length (store w) =
        Some (rlimit.mkLimiter (rlimit.LimitOf g) (mtu (ll w))) /\
      length (store w') = S (length (store w))
  | Some p =>
      globalLimiter (ll w') = Some p /\
      (exists old, store w !! p = Some old /\
         store w' !! p = Some (rlimit.mkLimiter (rlimit.LimitOf g) (rlimit.burst old))) /\
      length (store w') = length (store w)
  end /\
  connLimit (ll w') = c /\
  Forall (fun lc => exists p old,
            LimitedConn.connLimiter lc = Some p /\
            store w !! p = Some old /\
            store w' !! p =
              Some (rlimit.mkLimiter (rlimit.LimitOf c) (rlimit.burst old)))
         (conns (ll w')) /\
  (n_conns (ll w') = n_conns (ll w) /\ listener (ll w') = listener (ll w) /\
   mtu (ll w') = mtu (ll w) /\ conns (ll w') = conns (ll w) /\
   closed w' = closed w) /\
  (forall p, globalLimiter (ll w') <> Some p ->
             Some p ∉ LimitedConn.connLimiter <$> conns (ll w) ->
             store w' !! p = store w !! p) /\
  (forall p, p < length (store w) ->
             rlimit.burst <$> store w' !! p = rlimit.burst <$> store w !! p).
Proof.
  intros Hreg w'.
  destruct (SetLimits_effect g c w Hreg) as (H1 & H2 & H3 & H4 & H5 & H6 & _).
  repeat split; first [exact H1 | exact H2 | exact H3 | apply H4 | exact H5 | exact H6].
Qed.

(** The worlds reached from a new listener are registered. *)
Lemma NewWithListener_registered (l : RawListener) : registered (NewWithListener l).
Proof. split; [intros g [=]|constructor]. Qed.

Lemma SetLimits_registered (g c : Z) (w : World) :
  registered w -> registered (SetLimits g c w).
Proof. intros Hreg. by destruct (SetLimits_effect g c w Hreg) as (_ & _ & _ & _ & _ & _ & H). Qed.

Lemma Accept_registered (raw : option RawConn * option error) (w : World) :
  registered w -> registered (Accept raw w).1.
Proof.
  intros [Hg Hcs]. destruct raw as [rc err]. split; cbn.
  - intros g Hgl. rewrite length_app. cbn. specialize (Hg g Hgl). lia.
  - rewrite length_app. cbn. apply Forall_app. split.
    + eapply Forall_impl; [exact Hcs|]. cbn. intros lc (q & ? & ? & ?).
      exists q. repeat split; [done|lia|done].
    + constructor; [|constructor]. exists (length (store w)). cbn.
      split; [done|]. split; [lia|]. intros Hgl. specialize (Hg _ Hgl). lia.
Qed.

Lemma remove_at_Forall (P : LimitedConn.t -> Prop) (i : nat) (cs : list LimitedConn.t) :
  Forall P cs -> Forall P (remove_at i cs).
Proof.
  intros Hcs. unfold remove_at. destruct (last cs) as [c|] eqn:Hlast; [|done].
  apply Forall_take, Forall_insert; [done|].
  rewrite Forall_forall in Hcs. by apply Hcs, last_Some_elem_of.
Qed.

Lemma CloseConnection_loop_Forall (P : LimitedConn.t -> Prop) (x : Z)
    (all rest : list LimitedConn.t) (i : nat) :
  Forall P all -> Forall P (CloseConnection_loop x all i rest).
Proof.
  intros Hall. revert i. induction rest as [|c rest IH]; intros i; cbn; [done|].
  destruct (LimitedConn.id c =? x)%Z; [by apply remove_at_Forall|apply IH].
Qed.

Lemma CloseConnection_registered (conn : NetConn) (w w' : World) :
  registered w -> CloseConnection conn w = Ok w' -> registered w'.
Proof.
  intros [Hg Hcs]. unfold CloseConnection.
  destruct conn as [|lc|lc|rc]; try discriminate.
  destruct (LimitedConn.Close lc (closed w)); [|discriminate].
  intros [= <-]. split; cbn; [done|]. by apply CloseConnection_loop_Forall.
Qed.

Lemma run_registered (ops : list Op) (w w' : World) :
  registered w -> run ops w = Ok w' -> registered w'.
Proof.
  revert w. induction ops as [|op ops IH]; intros w Hreg Hrun; cbn in Hrun.
  - by injection Hrun as <-.
  - destruct op as [raw|g c|conn]; cbn in Hrun.
    + eapply IH; [|exact Hrun]. by apply Accept_registered.
    + eapply IH; [|exact Hrun]. by apply SetLimits_registered.
    + destruct (CloseConnection conn w) as [w1|] eqn:Hc; [|discriminate].
      eapply IH; [|exact Hrun]. by eapply CloseConnection_registered.
Qed.

(** ** Write *)

Section WriteLoop.

Variable env : LimitedConn.WriteEnv.
Variable lc : LimitedConn.t.
Hypothesis mtu_pos : (0 < LimitedConn.mtu lc)%Z.

Local Abbreviation m := (Z.to_nat (LimitedConn.mtu lc)).

(** With a positive chunk size the slice taken is [take m b] and what
    remains is [drop m b]. *)
Lemma next_chunk_pos (b : list byte) :
  LimitedConn.next_chunk (LimitedConn.mtu lc) b = Ok (take m b) /\
  drop (length (take m b)) b = drop m b.
Proof.
  unfold LimitedConn.next_chunk, len.
  destruct (Z.ltb_spec (LimitedConn.mtu lc) (Z.of_nat (length b))) as [Hlt|Hge].
  - destruct (Z.ltb_spec (LimitedConn.mtu lc) 0) as [?|_]; [lia|].
    split; [done|]. rewrite length_take_le by lia. done.
  - rewrite take_ge by lia. split; [done|].
    rewrite drop_all, drop_ge by lia. done.
Qed.

Lemma chunk_at_0 (b : list byte) : LimitedConn.chunk_at m b 0 = take m b.
Proof. reflexivity. Qed.

Lemma chunk_at_S (b : list byte) (i : nat) :
  LimitedConn.chunk_at m (drop m b) i = LimitedConn.chunk_at m b (S i).
Proof. unfold LimitedConn.chunk_at. rewrite drop_drop. do 2 f_equal. Qed.

Lemma m_pos : 0 < m.
Proof. lia. Qed.

(** One iteration whose joint wait fails. *)
Lemma Write_loop_wait_fails (fuel k : nat) (b : list byte) (n : Z)
    (err : option error) (sent : list (list byte)) (e : error) :
  b <> [] ->
  LimitedConn.waitN env k lc (len (take m b)) = Ok (Some e) ->
  LimitedConn.Write_loop env lc (S fuel) k b n err sent
  = (sent, LimitedConn.Returned 0 (Some e)).
Proof.
  intros Hb Hwait. cbn [LimitedConn.Write_loop].
  destruct (Z.ltb_spec 0 (len b)) as [_|Hle].
  - destruct (next_chunk_pos b) as [-> _]. by rewrite Hwait.
  - destruct b; [done|]. unfold len in Hle. cbn in Hle. lia.
Qed.

(** One iteration that goes through. *)
Lemma Write_loop_chunk_sent (fuel k : nat) (b : list byte) (n w : Z)
    (err : option error) (sent : list (list byte)) (rc : RawConn) :
  b <> [] ->
  LimitedConn.conn lc = Some rc ->
  LimitedConn.waitN env k lc (len (take m b)) = Ok None ->
  LimitedConn.rawWrite env k (take m b) = (w, None) ->
  LimitedConn.Write_loop env lc (S fuel) k b n err sent
  = LimitedConn.Write_loop env lc fuel (S k) (drop m b) (int_wrap (n + w)) None
      (sent ++ [take m b]).
Proof.
  intros Hb Hrc Hwait Hraw. cbn [LimitedConn.Write_loop].
  destruct (Z.ltb_spec 0 (len b)) as [_|Hle].
  - destruct (next_chunk_pos b) as [-> ->]. by rewrite Hwait, Hrc, Hraw.
  - destruct b; [done|]. unfold len in Hle. cbn in Hle. lia.
Qed.

(** The loop when the joint wait of the [j]-th chunk from here fails
    and everything before succeeds. *)
Lemma Write_loop_abort (j : nat) :
  forall (fuel k : nat) (b : list byte) (n : Z) (err : option error)
         (sent : list (list byte)) (e : error) (rc : RawConn),
  LimitedConn.conn lc = Some rc ->
  j < fuel ->
  j * m < length b ->
  (forall i, i < j ->
     LimitedConn.waitN env (k + i) lc (len (LimitedConn.chunk_at m b i)) = Ok None /\
     (LimitedConn.rawWrite env (k + i) (LimitedConn.chunk_at m b i)).2 = None) ->
  LimitedConn.waitN env (k + j) lc (len (LimitedConn.chunk_at m b j)) = Ok (Some e) ->
  LimitedConn.Write_loop env lc fuel k b n err sent
  = (sent ++ (LimitedConn.chunk_at m b <$> seq 0 j), LimitedConn.Returned 0 (Some e)).
Proof.
  pose proof m_pos as Hm.
  induction j as [|j IH]; intros fuel k b n err sent e rc Hrc Hfuel Hlen Hok Hfail.
  - destruct fuel as [|fuel]; [lia|].
    rewrite Nat.add_0_r, chunk_at_0 in Hfail.
    rewrite (Write_loop_wait_fails _ _ _ _ _ _ e); [by rewrite app_nil_r| |done].
    intros ->. cbn in Hlen. lia.
  - destruct fuel as [|fuel]; [lia|].
    destruct (Hok 0) as [Hw0 Hr0]; [lia|].
    rewrite Nat.add_0_r, chunk_at_0 in Hw0, Hr0.
    destruct (LimitedConn.rawWrite env k (take m b)) as [w werr] eqn:Hraw.
    cbn in Hr0. subst werr.
    rewrite (Write_loop_chunk_sent _ _ _ _ w _ _ rc); [|..|done]; [|intros ->; cbn in Hlen; lia|done|done].
    rewrite (IH _ _ _ _ _ _ e rc); [|done|lia|..].
    + rewrite <- app_assoc. cbn. rewrite <- fmap_S_seq, <- list_fmap_compose.
      do 3 f_equal. apply list_fmap_ext. intros _ i _. apply chunk_at_S.
    + rewrite length_drop. cbn in Hlen. lia.
    + intros i Hi. rewrite chunk_at_S.
      replace (S k + i) with (k + S i) by lia. apply Hok. lia.
    + rewrite chunk_at_S. replace (S k + j) with (k + S j) by lia. done.
Qed.

(** The loop when every joint wait and every raw write succeeds. *)
Lemma Write_loop_complete (fuel : nat) :
  forall (k : nat) (b : list byte) (n a : Z) (sent : list (list byte)) (rc : RawConn),
  LimitedConn.conn lc = Some rc ->
  length b < fuel ->
  n = int_wrap a ->
  (forall i, i * m < length b ->
     LimitedConn.waitN env (k + i) lc (len (LimitedConn.chunk_at m b i)) = Ok None /\
     LimitedConn.rawWrite env (k + i) (LimitedConn.chunk_at m b i)
     = (len (LimitedConn.chunk_at m b i), None)) ->
  exists cs,
    LimitedConn.Write_loop env lc fuel k b n None sent
    = (sent ++ cs, LimitedConn.Returned (int_wrap (a + len b)) None) /\
    concat cs = b /\
    (forall i s, cs !! i = Some s -> s = LimitedConn.chunk_at m b i /\ s <> []).
Proof.
  pose proof m_pos as Hm.
  induction fuel as [|fuel IH]; intros k b n a sent rc Hrc Hfuel Hn Hok; [lia|].
  destruct b as [|x b].
  { exists []. cbn. rewrite app_nil_r, Z.add_0_r. split; [by rewrite Hn|]. split; [done|].
    intros i s. by rewrite lookup_nil. }
  set (b0 := x :: b) in *.
  assert (Hb0 : b0 <> []) by done.
  destruct (Hok 0) as [Hw0 Hr0]; [cbn; lia|].
  rewrite Nat.add_0_r, chunk_at_0 in Hw0, Hr0.
  rewrite (Write_loop_chunk_sent _ _ _ _ _ _ _ rc Hb0 Hrc Hw0 Hr0).
  destruct (IH (S k) (drop m b0) (int_wrap (n + len (take m b0)))
              (a + len (take m b0))%Z (sent ++ [take m b0]) rc)
    as (cs & Hrun & Hcat & Hcs).
  - done.
  - rewrite length_drop. subst b0. cbn [length] in *. lia.
  - rewrite Hn. apply int_wrap_add_l.
  - intros i Hi. rewrite chunk_at_S.
    replace (S k + i) with (k + S i) by lia. apply Hok.
    rewrite length_drop in Hi. lia.
  - exists (take m b0 :: cs). split; [|split].
    + rewrite Hrun, <- app_assoc. cbn. do 3 f_equal.
      unfold len. rewrite <- Z.add_assoc, <- Nat2Z.inj_add, <- length_app.
      by rewrite take_drop.
    + cbn. rewrite Hcat. apply take_drop.
    + intros [|i] s Hs; cbn in Hs.
      * injection Hs as <-. split; [done|].
        subst b0. destruct m; [lia|done].
      * rewrite <- chunk_at_S. by apply Hcs.
Qed.

End WriteLoop.

(** C4.  When the joint wait of chunk [j] fails (everything before it
    having gone through), [Write] returns [(0, err)] with the error of
    that wait; the raw connection has received exactly the chunks
    [0 .. j-1], each once and in order, and nothing after them. *)
Theorem Write_wait_failure_returns_zero
    (env : LimitedConn.WriteEnv) (lc : LimitedConn.t) (b : list byte)
    (fuel j : nat) (e : error) (rc : RawConn) :
  let m := Z.to_nat (LimitedConn.mtu lc) in
  (0 < LimitedConn.mtu lc)%Z ->
  LimitedConn.conn lc = Some rc ->
  j < fuel ->
  j * m < length b ->
  (forall i, i < j ->
     LimitedConn.waitN env i lc (len (LimitedConn.chunk_at m b i)) = Ok None /\
     (LimitedConn.rawWrite env i (LimitedConn.chunk_at m b i)).2 = None) ->
  LimitedConn.waitN env j lc (len (LimitedConn.chunk_at m b j)) = Ok (Some e) ->
  LimitedConn.Write env lc fuel b
  = (LimitedConn.chunk_at m b <$> seq 0 j, LimitedConn.Returned 0 (Some e)).
Proof.
  intros m Hm Hrc Hfuel Hlen Hok Hfail. unfold LimitedConn.Write.
  by rewrite (Write_loop_abort env lc Hm j fuel 0 b 0 None [] e rc).
Qed.

(** C5.  When every joint wait and every raw write succeeds, [Write b]
    hands [b] to the raw connection as its consecutive chunks (chunk [i]
    is the at most [m] bytes from offset [i * m], none empty, together
    exactly [b]) and returns [(len(b), nil)]. *)
Theorem Write_complete
    (env : LimitedConn.WriteEnv) (lc : LimitedConn.t) (b : list byte)
    (fuel : nat) (rc : RawConn) :
  let m := Z.to_nat (LimitedConn.mtu lc) in
  (0 < LimitedConn.mtu lc)%Z ->
  LimitedConn.conn lc = Some rc ->
  (len b < 2 ^ 63)%Z ->
  length b < fuel ->
  (forall i, i * m < length b ->
     LimitedConn.waitN env i lc (len (LimitedConn.chunk_at m b i)) = Ok None /\
     LimitedConn.rawWrite env i (LimitedConn.chunk_at m b i)
     = (len (LimitedConn.chunk_at m b i), None)) ->
  exists cs,
    LimitedConn.Write env lc fuel b = (cs, LimitedConn.Returned (len b) None) /\
    concat cs = b /\
    (forall i s, cs !! i = Some s ->
       s = LimitedConn.chunk_at m b i /\ 0 < length s <= m).
Proof.
  intros m Hm Hrc Hint Hfuel Hok. unfold LimitedConn.Write.
  destruct (Write_loop_complete env lc Hm fuel 0 b 0 0 [] rc Hrc Hfuel eq_refl Hok)
    as (cs & Hrun & Hcat & Hcs).
  exists cs. split; [|split; [done|]].
  - rewrite Hrun. cbn. rewrite int_wrap_small; [done|]. unfold len in *. lia.
  - intros i s Hs. subst m. destruct (Hcs i s Hs) as [-> Hne]. split; [done|].
    split.
    + destruct (LimitedConn.chunk_at _ b i); [congruence|cbn [length]; lia].
    + unfold LimitedConn.chunk_at. rewrite length_take. lia.
Qed.

Lemma length_concat_chunks (m : nat) (cs : list (list byte)) :
  Forall (fun s => length s = m) cs -> length (concat cs) = length cs * m.
Proof.
  induction 1 as [|s cs Hs _ IH]; [done|].
  cbn. rewrite length_app, IH, Hs. done.
Qed.

(** C6.  When a [Write] is aborted by the failure of the joint wait of
    chunk [j], the raw connection has received [j] whole chunks: every
    slice it got has exactly the chunk size, their total is [j] times
    the chunk size, and that is strictly less than [len(b)]. *)
Theorem Write_abort_sends_whole_chunks
    (env : LimitedConn.WriteEnv) (lc : LimitedConn.t) (b : list byte)
    (fuel j : nat) (e : error) (rc : RawConn) :
  let m := Z.to_nat (LimitedConn.mtu lc) in
  (0 < LimitedConn.mtu lc)%Z ->
  LimitedConn.conn lc = Some rc ->
  j < fuel ->
  LimitedConn.chunk_at m b j <> [] ->
  (forall i, i < j ->
     LimitedConn.waitN env i lc (len (LimitedConn.chunk_at m b i)) = Ok None /\
     LimitedConn.rawWrite env i (LimitedConn.chunk_at m b i)
     = (len (LimitedConn.chunk_at m b i), None)) ->
  LimitedConn.waitN env j lc (len (LimitedConn.chunk_at m b j)) = Ok (Some e) ->
  exists sent,
    LimitedConn.Write env lc fuel b = (sent, LimitedConn.Returned 0 (Some e)) /\
    Forall (fun s => length s = m) sent /\
    length (concat sent) = j * m /\
    length (concat sent) < length b.
Proof.
  intros m Hm Hrc Hfuel Hj Hok Hfail.
  assert (Hlen : j * m < length b).
  { destruct (decide (j * m < length b)) as [|Hge]; [done|].
    exfalso. apply Hj. unfold LimitedConn.chunk_at.
    rewrite drop_ge by lia. by rewrite take_nil. }
  exists (LimitedConn.chunk_at m b <$> seq 0 j).
  assert (Hall : Forall (fun s => length s = m) (LimitedConn.chunk_at m b <$> seq 0 j)).
  { apply Forall_fmap, Forall_forall. intros i Hi%elem_of_seq. cbn.
    unfold LimitedConn.chunk_at. rewrite length_take, length_drop. nia. }
  split; [|split; [done|]].
  - unfold LimitedConn.Write.
    rewrite (Write_loop_abort env lc Hm j fuel 0 b 0 None [] e rc); try done.
    intros i Hi. destruct (Hok i Hi) as [Hw Hr].
    split; [exact Hw|exact (f_equal snd Hr)].
  - rewrite (length_concat_chunks m _ Hall), length_fmap, length_seq. lia.
Qed.

(** ** The joint wait *)


(** ** The chunk size of reachable listeners *)

Lemma run_mtu (ops : list Op) (l : RawListener) (w : World) :
  run ops (NewWithListener l) = Ok w ->
  mtu (ll w) = defaultMTU /\
  Forall (fun lc => LimitedConn.mtu lc = defaultMTU) (conns (ll w)).
Proof.
  assert (Hgen : forall w0,
            registered w0 ->
            mtu (ll w0) = defaultMTU ->
            Forall (fun lc => LimitedConn.mtu lc = defaultMTU) (conns (ll w0)) ->
            run ops w0 = Ok w ->
            mtu (ll w) = defaultMTU /\
            Forall (fun lc => LimitedConn.mtu lc = defaultMTU) (conns (ll w))).
  { induction ops as [|op ops IH]; intros w0 Hreg Hm Hcs Hrun; cbn in Hrun.
    - by injection Hrun as <-.
    - destruct op as [raw|g c|conn]; cbn in Hrun.
      + apply (IH _ (Accept_registered raw w0 Hreg)); [..|done];
          destruct raw as [rc err]; cbn; [done|].
        apply Forall_app. split; [done|]. by repeat constructor.
      + destruct (SetLimits_effect g c w0 Hreg)
          as (_ & _ & _ & (_ & _ & Hm' & Hcs' & _) & _ & _ & Hreg').
        apply (IH _ Hreg'); [congruence|by rewrite Hcs'|done].
      + destruct (CloseConnection conn w0) as [w1|] eqn:Hc; [|discriminate].
        pose proof (CloseConnection_registered _ _ _ Hreg Hc) as Hreg'.
        unfold CloseConnection in Hc. destruct conn as [|lc0|lc0|rc]; try discriminate.
        destruct (LimitedConn.Close lc0 (closed w0)); [|discriminate].
        injection Hc as <-.
        apply (IH _ Hreg'); [done| |done]. cbn.
        by apply CloseConnection_loop_Forall. }
  intros Hrun. apply (Hgen (NewWithListener l)); [|done|constructor|done].
  apply NewWithListener_registered.
Qed.

(** ** Chunk sizes that are not positive *)

(** With chunk size 0 the loop of [Write] takes an empty slice and makes
    no progress: while the waits and the raw writes succeed it never
    returns, whatever the fuel. *)
Lemma Write_zero_chunk_never_returns
    (env : LimitedConn.WriteEnv) (lc : LimitedConn.t) (rc : RawConn)
    (pc pg : rlimit.Ref) :
  LimitedConn.mtu lc = 0%Z ->
  LimitedConn.conn lc = Some rc ->
  LimitedConn.connLimiter lc = Some pc ->
  LimitedConn.globalLimiter lc = Some pg ->
  (forall k n, LimitedConn.connWaitN env k n = None) ->
  (forall k n, LimitedConn.globalWaitN env k n = None) ->
  (forall k s, (LimitedConn.rawWrite env k s).2 = None) ->
  forall fuel b, b <> [] -> (LimitedConn.Write env lc fuel b).2 = LimitedConn.OutOfFuel.
Proof.
  intros Hm Hrc Hpc Hpg Hc Hg Hraw fuel b Hb. unfold LimitedConn.Write.
  generalize 0%nat at 1. generalize 0%Z. generalize (@None error).
  generalize (@nil (list byte)).
  induction fuel as [|fuel IH]; intros sent err n k; [done|].
  cbn [LimitedConn.Write_loop].
  assert (Hlen : (0 < len b)%Z) by (destruct b; [done|unfold len; cbn; lia]).
  destruct (Z.ltb_spec 0 (len b)) as [_|?]; [|lia].
  unfold LimitedConn.next_chunk. rewrite Hm.
  destruct (Z.ltb_spec 0 (len b)) as [_|?]; [|lia].
  change (Z.to_nat 0) with 0%nat. rewrite take_0. cbn [length drop Z.ltb Z.compare].
  unfold LimitedConn.waitN, LimitedConn.done_chan.
  rewrite Hpc, Hpg, Hc, Hg, Hrc.
  specialize (Hraw k []).
  destruct (LimitedConn.rawWrite env k []) as [w werr]. cbn in Hraw. subst werr.
  destruct (LimitedConn.connFirst env k); cbn [LimitedConn.range_done]; apply IH.
Qed.

Example Write_negative_chunk_panics :
  LimitedConn.Write Samples.env_ok
    (LimitedConn.mk 0 (Some 7%nat) (Some 0%nat) (Some 1%nat) (-1)) 6 Samples.five_bytes
  = ([], LimitedConn.Panicked).
Proof. reflexivity. Qed.

(** ** Sample runs *)

Example Write_five_bytes_by_two :
  LimitedConn.Write Samples.env_ok Samples.conn2 6 Samples.five_bytes
  = ([[x01; x02]; [x03; x04]; [x05]]%byte, LimitedConn.Returned 5 None).
Proof. reflexivity. Qed.

Example Write_empty :
  LimitedConn.Write (Samples.env_cancel 0) Samples.conn2 1 []
  = ([], LimitedConn.Returned 0 None).
Proof. reflexivity. Qed.

(** A raw write that fails also gives [(0, err)]; the slice was handed
    to the raw connection. *)
Example Write_raw_failure :
  LimitedConn.Write
    (LimitedConn.mkEnv (fun _ _ => None) (fun _ _ => None) (fun _ => true)
       (fun k s => if Nat.eqb k 1 then (1%Z, Some "broken pipe"%string) else (len s, None))
       (fun _ => false))
    Samples.conn2 6 Samples.five_bytes
  = ([[x01; x02]; [x03; x04]]%byte, LimitedConn.Returned 0 (Some "broken pipe"%string)).
Proof. reflexivity. Qed.

(** When both waits fail, the error of the first result on the channel
    is the one returned. *)
Example waitN_both_fail :
  let env first :=
    LimitedConn.mkEnv (fun _ _ => Some "conn"%string) (fun _ _ => Some "global"%string)
      (fun _ => first) (fun _ s => (len s, None)) (fun _ => false) in
  LimitedConn.waitN (env true) 0 Samples.conn2 2 = Ok (Some "conn"%string) /\
  LimitedConn.waitN (env false) 0 Samples.conn2 2 = Ok (Some "global"%string).
Proof. split; reflexivity. Qed.

(** The connection accepted before the first [SetLimits] has no global
    limiter: each joint wait of its [Write] dereferences nil in a
    goroutine.  When the process dies at once nothing is sent; when the
    scheduler lets the caller run on, the data goes out, the global
    limiter never having been asked. *)
Example Write_on_conn_accepted_before_SetLimits :
  exists lc rest,
    conns (ll Samples.two_conns) = lc :: rest /\
    LimitedConn.globalLimiter lc = None /\
    LimitedConn.Write
      (LimitedConn.mkEnv (fun _ _ => None) (fun _ _ => None) (fun _ => true)
         (fun _ s => (len s, None)) (fun _ => true))
      lc 6 Samples.five_bytes = ([], LimitedConn.Panicked) /\
    LimitedConn.Write Samples.env_ok lc 6 Samples.five_bytes
    = ([Samples.five_bytes], LimitedConn.Returned 5 None).
Proof. do 2 eexists. split; [reflexivity|]. repeat split; reflexivity. Qed.

(** The entry registered by a failed [Accept] cannot be closed. *)
Example CloseConnection_after_failed_Accept :
  let r := Accept (None, Some "accept failed"%string) (NewWithListener 0) in
  CloseConnection r.2.1 r.1 = Panic.
Proof. reflexivity. Qed.

(** [CloseConnection] moves the last entry into the place of the one it
    removes. *)
Example CloseConnection_swaps_last :
  exists w3 w2 c0,
    run [OpAccept (Some 7%nat, None); OpAccept (Some 8%nat, None);
         OpAccept (Some 9%nat, None)] (NewWithListener 0) = Ok w3 /\
    (Accept (Some 7%nat, None) (NewWithListener 0)).2.1 = c0 /\
    CloseConnection c0 w3 = Ok w2 /\
    LimitedConn.id <$> conns (ll w2) = [2; 1]%Z /\
    closed w2 = [7%nat].
Proof. do 3 eexists. repeat split; reflexivity. Qed.

(** ** The theorems at sample inputs *)

Lemma Write_wait_failure_returns_zero_witness :
  LimitedConn.Write (Samples.env_cancel 1) Samples.conn2 6 Samples.five_bytes
  = ([[x01; x02]%byte], LimitedConn.Returned 0 (Some "context canceled"%string)).
Proof.
  apply (Write_wait_failure_returns_zero (Samples.env_cancel 1) Samples.conn2
           Samples.five_bytes 6 1 "context canceled"%string 7%nat).
  - cbn. lia.
  - reflexivity.
  - lia.
  - cbn. lia.
  - intros i Hi. assert (i = 0%nat) as -> by lia. split; reflexivity.
  - reflexivity.
Defined.

Lemma Write_complete_witness :
  exists cs,
    LimitedConn.Write Samples.env_ok Samples.conn2 6 Samples.five_bytes
    = (cs, LimitedConn.Returned 5 None) /\
    concat cs = Samples.five_bytes.
Proof.
  destruct (Write_complete Samples.env_ok Samples.conn2 Samples.five_bytes 6 7%nat)
    as (cs & Hrun & Hcat & _).
  - cbn. lia.
  - reflexivity.
  - unfold len. cbn. lia.
  - cbn. lia.
  - intros i _. split; reflexivity.
  - exists cs. split; [exact Hrun|exact Hcat].
Defined.

Lemma Write_abort_sends_whole_chunks_witness :
  exists sent,
    LimitedConn.Write (Samples.env_cancel 2) Samples.conn2 6 Samples.five_bytes
    = (sent, LimitedConn.Returned 0 (Some "context canceled"%string)) /\
    Forall (fun s => length s = 2%nat) sent /\
    length (concat sent) = 4%nat /\
    length (concat sent) < 5.
Proof.
  apply (Write_abort_sends_whole_chunks (Samples.env_cancel 2) Samples.conn2
           Samples.five_bytes 6 2 "context canceled"%string 7%nat).
  - cbn. lia.
  - reflexivity.
  - lia.
  - discriminate.
  - intros i Hi.
    assert (i = 0%nat \/ i = 1%nat) as [-> | ->] by lia; split; reflexivity.
  - reflexivity.
Defined.

Lemma SetLimits_spec_witness :
  registered Samples.two_conns /\
  globalLimiter (ll (SetLimits 20 7 Samples.two_conns)) = Some 1%nat /\
  connLimit (ll (SetLimits 20 7 Samples.two_conns)) = 7%Z.
Proof.
  assert (Hreg : registered Samples.two_conns).
  { split.
    - intros g [= <-]. cbn. lia.
    - repeat constructor; eexists; (split; [reflexivity|]);
        (split; [cbn; lia|discriminate]). }
  split; [exact Hreg|].
  destruct (SetLimits_spec 20 7 Samples.two_conns Hreg) as (H1 & H2 & _).
  split; [|exact H2].
  cbn in H1. destruct H1 as [H1 _]. exact H1.
Defined.


(** * Further properties *)

(** ** Removal from the registry *)

Lemma remove_at_length (i : nat) (cs : list LimitedConn.t) :
  length (remove_at i cs) = pred (length cs).
Proof.
  unfold remove_at. destruct (last cs) as [c|] eqn:Hlast.
  - rewrite length_take, length_insert. lia.
  - apply last_None in Hlast. by subst.
Qed.

Lemma remove_at_perm (i : nat) (cs : list LimitedConn.t) :
  i < length cs -> remove_at i cs ≡ₚ delete i cs.
Proof.
  intros Hi. unfold remove_at.
  destruct (last cs) as [x|] eqn:Hlast.
  2:{ apply last_None in Hlast. subst. cbn in Hi. lia. }
  apply last_Some in Hlast as [l ->].
  rewrite length_app in *. cbn [length] in *.
  replace (length l + 1 - 1) with (length l) by lia.
  destruct (decide (i < length l)) as [Hlt|Hge].
  - rewrite insert_app_l by done.
    rewrite take_app_length' by (by rewrite length_insert).
    rewrite !delete_take_drop, take_app_le, drop_app_le by lia.
    rewrite insert_take_drop by done.
    f_equiv. apply Permutation_cons_append.
  - assert (i = length l) as -> by lia.
    rewrite list_insert_id by (by rewrite list_lookup_middle).
    rewrite take_app_length.
    by rewrite (delete_middle l [] x), app_nil_r.
Qed.

Lemma remove_at_submseteq (i : nat) (cs : list LimitedConn.t) :
  remove_at i cs ⊆+ cs.
Proof.
  destruct (decide (i < length cs)) as [Hlt|Hge].
  - rewrite (remove_at_perm i cs Hlt). apply submseteq_delete.
  - unfold remove_at. destruct (last cs); [|done].
    rewrite list_insert_ge by lia. apply sublist_submseteq, sublist_take.
Qed.

(** The loop stops at the first entry with the identity looked for. *)
Lemma CloseConnection_loop_first_match (x : Z) (all rest : list LimitedConn.t)
    (k j : nat) (c : LimitedConn.t) :
  rest !! j = Some c ->
  LimitedConn.id c = x ->
  (forall j' c', j' < j -> rest !! j' = Some c' -> LimitedConn.id c' <> x) ->
  CloseConnection_loop x all k rest = remove_at (k + j) all.
Proof.
  revert k j. induction rest as [|c0 rest IH]; intros k j Hj Hid Hfirst; [done|].
  destruct j as [|j]; cbn in Hj |- *.
  - injection Hj as ->. rewrite Hid, Z.eqb_refl. by rewrite Nat.add_0_r.
  - destruct (Z.eqb_spec (LimitedConn.id c0) x) as [Heq|_].
    + by destruct (Hfirst 0 c0 ltac:(lia) eq_refl).
    + rewrite (IH (S k) j Hj Hid); [f_equal; lia|].
      intros j' c' Hlt Hc'. apply (Hfirst (S j') c'); [lia|done].
Qed.

(** Either no entry has the identity, or there is a first one. *)
Lemma first_match_or_none (x : Z) (cs : list LimitedConn.t) :
  Forall (fun c => LimitedConn.id c <> x) cs \/
  exists j c, cs !! j = Some c /\ LimitedConn.id c = x /\
    forall j' c', j' < j -> cs !! j' = Some c' -> LimitedConn.id c' <> x.
Proof.
  induction cs as [|c0 cs IH]; [by left|].
  destruct (decide (LimitedConn.id c0 = x)) as [Heq|Hne].
  - right. exists 0, c0. split; [done|]. split; [done|]. intros j' c' Hlt. lia.
  - destruct IH as [Hall|(j & c & Hj & Hid & Hfirst)].
    + left. by constructor.
    + right. exists (S j), c. split; [done|]. split; [done|].
      intros [|j'] c' Hlt Hc'; cbn in Hc'; [by injection Hc' as <-|].
      apply (Hfirst j' c'); [lia|done].
Qed.

Lemma CloseConnection_loop_submseteq (x : Z) (all rest : list LimitedConn.t) (k : nat) :
  CloseConnection_loop x all k rest ⊆+ all.
Proof.
  revert k. induction rest as [|c rest IH]; intros k; cbn; [done|].
  destruct (LimitedConn.id c =? x)%Z; [apply remove_at_submseteq|apply IH].
Qed.

(** X1.  [CloseConnection] of a [LimitedConn] whose identity is in the
    registry removes the first entry with that identity and no other:
    the registry becomes a permutation of the old one without that
    entry (the last entry takes its place).  The raw connection is
    closed, the counter decremented, the limiters are left alone. *)
Theorem CloseConnection_removes_first_match
    (lc c : LimitedConn.t) (rc : RawConn) (w : World) (i : nat) :
  LimitedConn.conn lc = Some rc ->
  conns (ll w) !! i = Some c ->
  LimitedConn.id c = LimitedConn.id lc ->
  (forall j c', j < i -> conns (ll w) !! j = Some c' ->
                LimitedConn.id c' <> LimitedConn.id lc) ->
  exists w',
    CloseConnection (AsLimitedConn lc) w = Ok w' /\
    conns (ll w') ≡ₚ delete i (conns (ll w)) /\
    (forall j, j < pred (length (conns (ll w))) -> j <> i ->
               conns (ll w') !! j = conns (ll w) !! j) /\
    (i < pred (length (conns (ll w))) -> conns (ll w') !! i = last (conns (ll w))) /\
    length (conns (ll w')) = pred (length (conns (ll w))) /\
    n_conns (ll w') = int_wrap (n_conns (ll w) - 1) /\
    closed w' = closed w ++ [rc] /\
    store w' = store w /\
    globalLimiter (ll w') = globalLimiter (ll w) /\
    connLimit (ll w') = connLimit (ll w) /\
    mtu (ll w') = mtu (ll w).
Proof.
  intros Hrc Hi Hid Hfirst.
  unfold CloseConnection, LimitedConn.Close. rewrite Hrc.
  eexists. split; [reflexivity|]. cbn.
  rewrite (CloseConnection_loop_first_match _ _ _ 0 i c Hi Hid Hfirst). cbn.
  pose proof (lookup_lt_Some _ _ _ Hi) as Hlt.
  split; [by apply remove_at_perm|].
  split; [|split; [|split; [apply remove_at_length|done]]].
  - intros j Hj Hne. unfold remove_at.
    destruct (last (conns (ll w))) as [x|] eqn:Hlast.
    + rewrite lookup_take_lt by lia. by rewrite list_lookup_insert_ne.
    + done.
  - intros Hi'. unfold remove_at.
    destruct (last (conns (ll w))) as [x|] eqn:Hlast.
    + rewrite lookup_take_lt by lia. by rewrite list_lookup_insert_eq.
    + apply last_None in Hlast. rewrite Hlast in Hlt. cbn in Hlt. lia.
Qed.

Lemma CloseConnection_removes_first_match_witness :
  exists w',
    CloseConnection
      (AsLimitedConn (LimitedConn.mk 0 (Some 7%nat) None (Some 0%nat) 1024))
      Samples.two_conns = Ok w' /\
    LimitedConn.id <$> conns (ll w') = [1%Z] /\
    closed w' = [7%nat].
Proof.
  destruct (CloseConnection_removes_first_match
              (LimitedConn.mk 0 (Some 7%nat) None (Some 0%nat) 1024)
              (LimitedConn.mk 0 (Some 7%nat) None (Some 0%nat) 1024)
              7%nat Samples.two_conns 0 eq_refl eq_refl eq_refl)
    as (w' & Hok & _ & _ & Hlast & _ & _ & Hclosed & _).
  - intros j c' Hj. lia.
  - exists w'. split; [exact Hok|]. split; [|exact Hclosed].
    injection Hok as <-. reflexivity.
Defined.

(** With distinct identities the loop removes the entry looked for and
    nothing else. *)
Lemma CloseConnection_loop_distinct (x : Z) (cs : list LimitedConn.t) :
  NoDup (LimitedConn.id <$> cs) ->
  (forall y, y ∈ CloseConnection_loop x cs 0 cs <-> y ∈ cs /\ LimitedConn.id y <> x) /\
  NoDup (LimitedConn.id <$> CloseConnection_loop x cs 0 cs).
Proof.
  intros Hnd.
  destruct (first_match_or_none x cs) as [Hall|(j & c & Hj & Hid & Hfirst)].
  - rewrite CloseConnection_loop_no_match by done.
    split; [|done]. intros y.
    pose proof (proj1 (Forall_forall _ _) Hall) as Hall'.
    split; [intros Hy; split; [done|by apply Hall']|by intros [? _]].
  - rewrite (CloseConnection_loop_first_match x cs cs 0 j c Hj Hid Hfirst). cbn.
    pose proof (lookup_lt_Some _ _ _ Hj) as Hlt.
    pose proof (remove_at_perm j cs Hlt) as Hperm.
    split.
    + intros y. rewrite Hperm, delete_take_drop.
      rewrite <- (take_drop_middle cs j c Hj) in Hnd at 1.
      rewrite fmap_app, fmap_cons in Hnd.
      apply NoDup_app in Hnd as (_ & Hl & Hr). apply NoDup_cons in Hr as [Hr _].
      rewrite <- (take_drop_middle cs j c Hj) at 3.
      rewrite !elem_of_app, elem_of_cons. split.
      * intros [Hy|Hy]; (split; [tauto|]); intros Heq.
        -- apply (Hl (LimitedConn.id y)); [by apply list_elem_of_fmap_2|].
           rewrite Heq, <- Hid. left.
        -- apply Hr. rewrite Hid, <- Heq. by apply list_elem_of_fmap_2.
      * intros [[Hy|[->|Hy]] Hne]; [by left|done|by right].
    + rewrite Hperm, list_fmap_delete.
      eapply sublist_NoDup; [exact Hnd|apply sublist_delete].
Qed.

(** X2.  While the identities in the registry are distinct,
    [CloseConnection] deregisters exactly the connection it is given:
    afterwards the registry holds the entries with another identity, all
    of them and only them, and the identities are still distinct. *)
Theorem CloseConnection_distinct_ids (lc : LimitedConn.t) (rc : RawConn) (w : World) :
  LimitedConn.conn lc = Some rc ->
  NoDup (LimitedConn.id <$> conns (ll w)) ->
  exists w',
    CloseConnection (AsLimitedConn lc) w = Ok w' /\
    (forall y, y ∈ conns (ll w') <->
               y ∈ conns (ll w) /\ LimitedConn.id y <> LimitedConn.id lc) /\
    NoDup (LimitedConn.id <$> conns (ll w')).
Proof.
  intros Hrc Hnd. unfold CloseConnection, LimitedConn.Close. rewrite Hrc.
  eexists. split; [reflexivity|]. cbn.
  by apply CloseConnection_loop_distinct.
Qed.

Lemma CloseConnection_distinct_ids_witness :
  exists w',
    CloseConnection
      (AsLimitedConn (LimitedConn.mk 1 (Some 8%nat) (Some 1%nat) (Some 2%nat) 1024))
      Samples.two_conns = Ok w' /\
    NoDup (LimitedConn.id <$> conns (ll w')).
Proof.
  destruct (CloseConnection_distinct_ids
              (LimitedConn.mk 1 (Some 8%nat) (Some 1%nat) (Some 2%nat) 1024)
              8%nat Samples.two_conns eq_refl) as (w' & Hok & _ & Hnd).
  - apply (bool_decide_unpack _). reflexivity.
  - exists w'. split; [exact Hok|exact Hnd].
Defined.

(** X3.  [CloseConnection] is not idempotent: closing the same connection
    a second time finds no entry any more and leaves the registry alone,
    but closes the raw connection again and decrements the counter a
    second time. *)
Theorem CloseConnection_twice (lc : LimitedConn.t) (rc : RawConn) (w w1 : World) :
  LimitedConn.conn lc = Some rc ->
  NoDup (LimitedConn.id <$> conns (ll w)) ->
  CloseConnection (AsLimitedConn lc) w = Ok w1 ->
  exists w2,
    CloseConnection (AsLimitedConn lc) w1 = Ok w2 /\
    conns (ll w2) = conns (ll w1) /\
    n_conns (ll w2) = int_wrap (n_conns (ll w) - 2) /\
    closed w2 = closed w ++ [rc; rc] /\
    store w2 = store w.
Proof.
  intros Hrc Hnd Hfirst.
  unfold CloseConnection, LimitedConn.Close in *. rewrite Hrc in *.
  injection Hfirst as <-. cbn.
  destruct (CloseConnection_loop_distinct (LimitedConn.id lc) _ Hnd) as [Hin _].
  eexists. split; [reflexivity|]. cbn.
  split; [|split; [|split; [by rewrite <- app_assoc|done]]].
  - apply CloseConnection_loop_no_match, Forall_forall.
    intros y Hy. by apply Hin in Hy as [_ Hne].
  - replace (int_wrap (n_conns (ll w) - 1) - 1)%Z
      with (int_wrap (n_conns (ll w) - 1) + (-1))%Z by lia.
    rewrite int_wrap_add_l. f_equal. lia.
Qed.

Lemma CloseConnection_twice_witness :
  exists w1 w2,
    CloseConnection
      (AsLimitedConn (LimitedConn.mk 1 (Some 8%nat) (Some 1%nat) (Some 2%nat) 1024))
      Samples.two_conns = Ok w1 /\
    CloseConnection
      (AsLimitedConn (LimitedConn.mk 1 (Some 8%nat) (Some 1%nat) (Some 2%nat) 1024))
      w1 = Ok w2 /\
    n_conns (ll w2) = 0%Z /\ closed w2 = [8%nat; 8%nat].
Proof.
  assert (H1 : exists w1,
             CloseConnection
               (AsLimitedConn (LimitedConn.mk 1 (Some 8%nat) (Some 1%nat) (Some 2%nat) 1024))
               Samples.two_conns = Ok w1) by (eexists; reflexivity).
  destruct H1 as [w1 H1]. exists w1.
  destruct (CloseConnection_twice
              (LimitedConn.mk 1 (Some 8%nat) (Some 1%nat) (Some 2%nat) 1024)
              8%nat Samples.two_conns w1 eq_refl) as (w2 & Hok & _ & Hn & Hcl & _).
  - apply (bool_decide_unpack _). reflexivity.
  - exact H1.
  - exists w2. split; [exact H1|]. split; [exact Hok|]. split; [exact Hn|exact Hcl].
Defined.

(** ** Accept and CloseConnection together *)

(** X4.  Accepting a connection and closing it through the listener gives
    the listener back as it was (counter, registry, limits), provided
    the identity taken was not in the registry already; the raw
    connection is closed, and the limiter made for the connection stays
    in the store. *)
Theorem Accept_then_CloseConnection
    (w : World) (rc : RawConn) (err : option error) :
  (- 2 ^ 63 <= n_conns (ll w) < 2 ^ 63)%Z ->
  Forall (fun c => LimitedConn.id c <> n_conns (ll w)) (conns (ll w)) ->
  let r := Accept (Some rc, err) w in
  exists w',
    CloseConnection r.2.1 r.1 = Ok w' /\
    ll w' = ll w /\
    closed w' = closed w ++ [rc] /\
    store w' =
      store w ++ [rlimit.mkLimiter (rlimit.LimitOf (connLimit (ll w))) (mtu (ll w))].
Proof.
  intros Hrange Hfresh. cbn.
  eexists. split; [reflexivity|]. cbn. split; [|done].
  set (lconn := LimitedConn.mk _ _ _ _ _).
  rewrite (CloseConnection_loop_first_match _ _ _ 0 (length (conns (ll w))) lconn).
  - unfold remove_at. rewrite last_snoc. cbn.
    rewrite list_insert_id by apply list_lookup_middle, eq_refl.
    rewrite length_app. cbn.
    replace (length (conns (ll w)) + 1 - 1) with (length (conns (ll w))) by lia.
    rewrite take_app_length.
    replace (int_wrap (n_conns (ll w) + 1) - 1)%Z
      with (int_wrap (n_conns (ll w) + 1) + (-1))%Z by lia.
    rewrite int_wrap_add_l.
    replace (n_conns (ll w) + 1 + -1)%Z with (n_conns (ll w)) by lia.
    rewrite int_wrap_small by done. by destruct (ll w).
  - by apply list_lookup_middle.
  - done.
  - intros j c' Hj Hc'. rewrite lookup_app_l in Hc' by done.
    rewrite Forall_lookup in Hfresh. by apply (Hfresh j c').
Qed.

Lemma Accept_then_CloseConnection_witness :
  exists w',
    CloseConnection (Accept (Some 9%nat, None) Samples.two_conns).2.1
                    (Accept (Some 9%nat, None) Samples.two_conns).1 = Ok w' /\
    ll w' = ll Samples.two_conns /\
    closed w' = [9%nat].
Proof.
  destruct (Accept_then_CloseConnection Samples.two_conns 9%nat None)
    as (w' & Hok & Hll & Hcl & _).
  - change (n_conns (ll Samples.two_conns)) with 2%Z. lia.
  - repeat constructor; discriminate.
  - exists w'. split; [exact Hok|]. split; [exact Hll|exact Hcl].
Defined.

(** ** The size of the registry *)

Lemma CloseConnection_loop_length (x : Z) (all rest : list LimitedConn.t) (k : nat) :
  length (CloseConnection_loop x all k rest) = length all \/
  length (CloseConnection_loop x all k rest) = pred (length all).
Proof.
  revert k. induction rest as [|c rest IH]; intros k; cbn; [by left|].
  destruct (LimitedConn.id c =? x)%Z; [right; apply remove_at_length|apply IH].
Qed.

Lemma run_registry_size (ops : list Op) (w w' : World) :
  run ops w = Ok w' ->
  length (conns (ll w')) <= length (conns (ll w)) + accepts ops /\
  length (conns (ll w)) + accepts ops <= length (conns (ll w')) + closes ops.
Proof.
  revert w. induction ops as [|op ops IH]; intros w Hrun; cbn in Hrun.
  - injection Hrun as <-. cbn. lia.
  - destruct op as [raw|g c|conn]; cbn in Hrun; cbn [accepts closes].
    + apply IH in Hrun. destruct raw as [rc err]. cbn in Hrun.
      rewrite length_app in Hrun. cbn in Hrun. lia.
    + apply IH in Hrun.
      pose proof (f_equal length (SetLimits_ids g c w)) as Hlen.
      rewrite !length_fmap in Hlen. lia.
    + destruct (CloseConnection conn w) as [w1|] eqn:Hc; [|discriminate].
      apply IH in Hrun.
      unfold CloseConnection in Hc. destruct conn as [|lc|lc|rc]; try discriminate.
      destruct (LimitedConn.Close lc (closed w)); [|discriminate].
      injection Hc as <-. cbn in Hrun.
      destruct (CloseConnection_loop_length (LimitedConn.id lc) (conns (ll w))
                  (conns (ll w)) 0) as [Hl|Hl]; rewrite Hl in Hrun; lia.
Qed.

(** X5.  On a new listener the registry never holds more entries than
    there were [Accept] calls, and never fewer than [Accept] calls minus
    [CloseConnection] calls: an [Accept] adds one entry, a
    [CloseConnection] removes at most one.  The counter is at most the
    size of the registry. *)
Theorem registry_size_bounds (l : RawListener) (ops : list Op) (w : World) :
  run ops (NewWithListener l) = Ok w ->
  accepts ops - closes ops <= length (conns (ll w)) <= accepts ops /\
  ((Z.of_nat (accepts ops) < 2 ^ 63)%Z -> (Z.of_nat (closes ops) <= 2 ^ 63)%Z ->
   (n_conns (ll w) <= Z.of_nat (length (conns (ll w))))%Z).
Proof.
  intros Hrun. destruct (run_registry_size _ _ _ Hrun) as [Hup Hlow]. cbn in Hup, Hlow.
  split; [lia|]. intros Hacc Hcl.
  rewrite (run_n_conns _ _ _ 0%Z Hrun eq_refl).
  rewrite int_wrap_small; lia.
Qed.

Lemma registry_size_bounds_witness :
  exists w,
    run [OpAccept (Some 7%nat, None); OpAccept (Some 8%nat, None);
         OpCloseConnection
           (AsLimitedConn (LimitedConn.mk 5 (Some 7%nat) None (Some 0%nat) 1024))]
        (NewWithListener 0) = Ok w /\
    1 <= length (conns (ll w)) <= 2 /\
    (n_conns (ll w) <= Z.of_nat (length (conns (ll w))))%Z.
Proof.
  eexists. split; [reflexivity|].
  destruct (registry_size_bounds 0
              [OpAccept (Some 7%nat, None); OpAccept (Some 8%nat, None);
               OpCloseConnection
                 (AsLimitedConn (LimitedConn.mk 5 (Some 7%nat) None (Some 0%nat) 1024))]
              _ eq_refl) as [Hsize Hn].
  split; [exact Hsize|]. apply Hn; cbn; lia.
Defined.

(** ** Invariants of the worlds a listener reaches *)

Lemma CloseConnection_Ok_inv (conn : NetConn) (w w' : World) :
  CloseConnection conn w = Ok w' ->
  exists lc rc,
    conn = AsLimitedConn lc /\ LimitedConn.conn lc = Some rc /\
    w' = mkWorld (store w)
           (mk (int_wrap (n_conns (ll w) - 1)) (listener (ll w)) (globalLimiter (ll w))
               (connLimit (ll w)) (mtu (ll w))
               (CloseConnection_loop (LimitedConn.id lc) (conns (ll w)) 0 (conns (ll w))))
           (closed w ++ [rc]).
Proof.
  unfold CloseConnection, LimitedConn.Close.
  destruct conn as [|lc|lc|rc]; try discriminate.
  destruct (LimitedConn.conn lc) as [rc|] eqn:Hrc; [|discriminate].
  intros [= <-]. by exists lc, rc.
Qed.

(** A property kept by each of the three operations holds after every
    sequence of them. *)
Lemma run_invariant (P : World -> Prop) :
  (forall raw w, registered w -> P w -> P (Accept raw w).1) ->
  (forall g c w, registered w -> P w -> P (SetLimits g c w)) ->
  (forall conn w w', registered w -> P w -> CloseConnection conn w = Ok w' -> P w') ->
  forall ops w w', registered w -> P w -> run ops w = Ok w' -> P w'.
Proof.
  intros HA HS HC ops. induction ops as [|op ops IH]; intros w w' Hreg HP Hrun;
    cbn in Hrun.
  - by injection Hrun as <-.
  - destruct op as [raw|g c|conn]; cbn in Hrun.
    + apply (IH (Accept raw w).1); [by apply Accept_registered|by apply HA|done].
    + apply (IH (SetLimits g c w)); [by apply SetLimits_registered|by apply HS|done].
    + destruct (CloseConnection conn w) as [w1|] eqn:Hc; [|discriminate].
      apply (IH w1); [by eapply CloseConnection_registered|by eapply HC|done].
Qed.

Lemma NoDup_submseteq_inv {A : Type} (l k : list A) : l ⊆+ k -> NoDup k -> NoDup l.
Proof.
  intros Hsub Hnd. destruct (submseteq_Permutation _ _ Hsub) as [k' Hk].
  rewrite Hk in Hnd. by apply NoDup_app in Hnd as (? & _ & _).
Qed.

(** X6.  Every registered connection owns its limiter: on a listener made
    by [NewWithListener], after any calls, the per-connection limiters of
    the registry entries are pairwise different objects, each is a
    limiter of the store and none is the global limiter. *)
Theorem conn_limiters_are_exclusive (l : RawListener) (ops : list Op) (w : World) :
  run ops (NewWithListener l) = Ok w ->
  NoDup (LimitedConn.connLimiter <$> conns (ll w)) /\
  Forall (fun lc => exists p,
            LimitedConn.connLimiter lc = Some p /\
            is_Some (store w !! p) /\
            globalLimiter (ll w) <> Some p)
         (conns (ll w)) /\
  (forall g, globalLimiter (ll w) = Some g -> is_Some (store w !! g)).
Proof.
  intros Hrun.
  pose proof (run_registered _ _ _ (NewWithListener_registered l) Hrun) as [Hg Hcs].
  split; [|split].
  - revert Hrun. apply (run_invariant
      (fun w => NoDup (LimitedConn.connLimiter <$> conns (ll w))));
      [| | |apply NewWithListener_registered|constructor].
    + intros [rc err] w0 [_ Hreg] Hnd. cbn. rewrite fmap_app. apply NoDup_app.
      split; [done|]. split; [|apply NoDup_singleton].
      intros x (lc & -> & Hin)%list_elem_of_fmap. cbn.
      rewrite Forall_forall in Hreg. destruct (Hreg lc Hin) as (p & -> & Hlt & _).
      rewrite list_elem_of_singleton. intros [= ->]. lia.
    + intros g c w0 Hreg Hnd.
      destruct (SetLimits_effect g c w0 Hreg)
        as (_ & _ & _ & (_ & _ & _ & -> & _) & _). done.
    + intros conn w0 w1 _ Hnd (lc & rc & _ & _ & ->)%CloseConnection_Ok_inv. cbn.
      eapply NoDup_submseteq_inv; [|exact Hnd].
      apply fmap_submseteq, CloseConnection_loop_submseteq.
  - eapply Forall_impl; [exact Hcs|]. cbn. intros lc (p & ? & ? & ?).
    exists p. split; [done|]. split; [by apply lookup_lt_is_Some_2|done].
  - intros g Hgl. by apply lookup_lt_is_Some_2, Hg.
Qed.

Lemma conn_limiters_are_exclusive_witness :
  NoDup (LimitedConn.connLimiter <$> conns (ll Samples.two_conns)).
Proof.
  apply (conn_limiters_are_exclusive 0
           [OpAccept (Some 7%nat, None); OpSetLimits 10 5; OpAccept (Some 8%nat, None)]
           Samples.two_conns eq_refl).
Defined.

(** X7.  The limiter of every registered connection has the listener's
    current per-connection rate: [Accept] creates it with [ll.connLimit]
    and [SetLimits] updates all of them when it records a new value. *)
Theorem conn_limiters_have_current_rate (l : RawListener) (ops : list Op) (w : World) :
  run ops (NewWithListener l) = Ok w ->
  Forall (fun lc => exists p lim,
            LimitedConn.connLimiter lc = Some p /\
            store w !! p = Some lim /\
            rlimit.limit lim = rlimit.LimitOf (connLimit (ll w)))
         (conns (ll w)).
Proof.
  apply (run_invariant
    (fun w => Forall (fun lc => exists p lim,
                        LimitedConn.connLimiter lc = Some p /\
                        store w !! p = Some lim /\
                        rlimit.limit lim = rlimit.LimitOf (connLimit (ll w)))
                     (conns (ll w))));
    [| | |apply NewWithListener_registered|constructor].
  - intros [rc err] w0 _ HK. cbn. apply Forall_app. split.
    + eapply Forall_impl; [exact HK|]. cbn. intros lc (p & lim & ? & Hp & ?).
      exists p, lim. split; [done|]. split; [by apply lookup_app_l_Some|done].
    + repeat constructor. eexists _, _. cbn. split; [done|].
      split; [by apply list_lookup_middle|done].
  - intros g c w0 Hreg _.
    destruct (SetLimits_effect g c w0 Hreg) as (_ & Hc & Hcs & _).
    eapply Forall_impl; [exact Hcs|]. cbn. intros lc (p & old & ? & _ & Hp).
    eexists p, _. split; [done|]. split; [exact Hp|]. cbn. by rewrite Hc.
  - intros conn w0 w1 _ HK (lc & rc & _ & _ & ->)%CloseConnection_Ok_inv. cbn.
    by apply CloseConnection_loop_Forall.
Qed.

Lemma conn_limiters_have_current_rate_witness :
  Forall (fun lc => exists p lim,
            LimitedConn.connLimiter lc = Some p /\
            store Samples.two_conns !! p = Some lim /\
            rlimit.limit lim = rlimit.LimitOf 5)
         (conns (ll Samples.two_conns)).
Proof.
  apply (conn_limiters_have_current_rate 0
           [OpAccept (Some 7%nat, None); OpSetLimits 10 5; OpAccept (Some 8%nat, None)]
           Samples.two_conns eq_refl).
Defined.

(** After [SetLimits g c] the listener has a global limiter of rate [g]
    and records [c]. *)
Lemma SetLimits_sets_rates (g c : Z) (w : World) :
  registered w ->
  connLimit (ll (SetLimits g c w)) = c /\
  exists p lim,
    globalLimiter (ll (SetLimits g c w)) = Some p /\
    store (SetLimits g c w) !! p = Some lim /\
    rlimit.limit lim = rlimit.LimitOf g.
Proof.
  intros Hreg. destruct (SetLimits_effect g c w Hreg) as (Hglob & Hc & _).
  split; [exact Hc|].
  destruct (globalLimiter (ll w)) as [p|].
  - destruct Hglob as (Hp & (old & _ & Hnew) & _). by eexists p, _.
  - destruct Hglob as (Hp & Hnew & _). by eexists _, _.
Qed.

(** X8.  The limits set by [SetLimits g c] stay in force until the next
    [SetLimits]: through any [Accept] and [CloseConnection] calls the
    listener keeps recording [c] and its global limiter keeps rate [g]. *)
Theorem limits_stay_in_force (g c : Z) (ops : list Op) (w0 w : World) :
  registered w0 ->
  (forall g' c', OpSetLimits g' c' ∉ ops) ->
  run ops (SetLimits g c w0) = Ok w ->
  connLimit (ll w) = c /\
  exists p lim,
    globalLimiter (ll w) = Some p /\
    store w !! p = Some lim /\
    rlimit.limit lim = rlimit.LimitOf g.
Proof.
  intros Hreg0 Hno Hrun.
  pose proof (SetLimits_sets_rates g c w0 Hreg0) as Hstart.
  revert Hrun Hstart. generalize (SetLimits g c w0). clear w0 Hreg0.
  induction ops as [|op ops IH]; intros w1 Hrun Hstart; cbn in Hrun.
  - by injection Hrun as <-.
  - assert (Hno' : forall g' c', OpSetLimits g' c' ∉ ops).
    { intros g' c' Hin. apply (Hno g' c'). by right. }
    destruct Hstart as (Hc & p & lim & Hp & Hlim & Hrate).
    destruct op as [[rc err]|g' c'|conn]; cbn in Hrun.
    + apply (IH Hno' _ Hrun). cbn. split; [done|].
      exists p, lim. split; [done|]. split; [by apply lookup_app_l_Some|done].
    + destruct (Hno g' c'). left.
    + destruct (CloseConnection conn w1) as [w2|] eqn:Hclose; [|discriminate].
      apply CloseConnection_Ok_inv in Hclose as (lc & rc & _ & _ & ->).
      apply (IH Hno' _ Hrun). cbn. split; [done|]. by exists p, lim.
Qed.

Lemma limits_stay_in_force_witness :
  exists w,
    run [OpAccept (Some 7%nat, None); OpAccept (Some 8%nat, None)]
        (SetLimits 10 5 (NewWithListener 0)) = Ok w /\
    connLimit (ll w) = 5%Z /\
    exists p lim,
      globalLimiter (ll w) = Some p /\
      store w !! p = Some lim /\
      rlimit.limit lim = rlimit.LimitOf 10.
Proof.
  eexists. split; [reflexivity|].
  apply (limits_stay_in_force 10 5
           [OpAccept (Some 7%nat, None); OpAccept (Some 8%nat, None)]
           (NewWithListener 0)).
  - split; [intros g [=]|constructor].
  - intros g' c' Hin.
    repeat (apply elem_of_cons in Hin as [Hin|Hin]; [discriminate Hin|]).
    by apply elem_of_nil in Hin.
  - reflexivity.
Defined.

(** X9.  On a listener made by [NewWithListener] the chunk size is 1024
    everywhere and for good: it is the [mtu] of the listener and of every
    registered connection, and the burst of every limiter ever created,
    which no operation changes. *)
Theorem chunk_size_is_default_everywhere (l : RawListener) (ops : list Op) (w : World) :
  run ops (NewWithListener l) = Ok w ->
  mtu (ll w) = defaultMTU /\
  Forall (fun lc => LimitedConn.mtu lc = defaultMTU) (conns (ll w)) /\
  Forall (fun lim => rlimit.burst lim = defaultMTU) (store w).
Proof.
  intros Hrun. destruct (run_mtu _ _ _ Hrun) as [Hm Hcs].
  split; [done|]. split; [done|]. clear Hm Hcs. revert Hrun.
  apply (run_invariant
    (fun w => mtu (ll w) = defaultMTU /\
              Forall (fun lim => rlimit.burst lim = defaultMTU) (store w)));
    [| | |apply NewWithListener_registered|by split].
  - intros [rc err] w0 _ [Hm Hb]. cbn. split; [done|].
    apply Forall_app. split; [done|]. by repeat constructor.
  - intros g c w0 Hreg [Hm Hb].
    destruct (SetLimits_effect g c w0 Hreg)
      as (Hglob & _ & _ & (_ & _ & Hm' & _) & _ & Hburst & _).
    split; [congruence|]. apply Forall_lookup. intros p lim Hp.
    destruct (decide (p < length (store w0))) as [Hlt|Hge].
    + specialize (Hburst p Hlt). rewrite Hp in Hburst.
      destruct (store w0 !! p) as [old|] eqn:Hold; [|done].
      injection Hburst as ->. rewrite Forall_lookup in Hb. by apply (Hb p).
    + destruct (globalLimiter (ll w0)) as [q|].
      * destruct Hglob as (_ & _ & Hlen). apply lookup_lt_Some in Hp. lia.
      * destruct Hglob as (_ & Hnew & Hlen).
        pose proof (lookup_lt_Some _ _ _ Hp) as Hlt.
        assert (p = length (store w0)) as -> by lia.
        rewrite Hnew in Hp. injection Hp as <-. done.
  - intros conn w0 w1 _ HP (lc & rc & _ & _ & ->)%CloseConnection_Ok_inv. done.
Qed.

Lemma chunk_size_is_default_everywhere_witness :
  mtu (ll Samples.two_conns) = 1024%Z /\
  Forall (fun lc => LimitedConn.mtu lc = 1024%Z) (conns (ll Samples.two_conns)) /\
  Forall (fun lim => rlimit.burst lim = 1024%Z) (store Samples.two_conns).
Proof.
  apply (chunk_size_is_default_everywhere 0
           [OpAccept (Some 7%nat, None); OpSetLimits 10 5; OpAccept (Some 8%nat, None)]
           Samples.two_conns eq_refl).
Defined.

Lemma SetLimits_loop_globals (c : Z) (cs : list LimitedConn.t) (h : rlimit.Store) :
  LimitedConn.globalLimiter <$> (SetLimits_loop c cs h).2
  = LimitedConn.globalLimiter <$> cs.
Proof.
  revert h. induction cs as [|lc cs IH]; intros h; [reflexivity|].
  cbn [SetLimits_loop].
  pose proof (SetLimit_fields c lc h) as (_ & _ & Hgl & _).
  destruct (LimitedConn.SetLimit c lc h) as [h1 lc'].
  specialize (IH h1). destruct (SetLimits_loop c cs h1) as [h2 rest'].
  cbn in *. congruence.
Qed.

(** X10.  Once the listener has a global limiter, every connection it
    accepts holds that same limiter, and no operation changes that: if
    all registered connections share the listener's global limiter, they
    still do after any further calls, new connections included. *)
Theorem global_limiter_is_shared (p : rlimit.Ref) (ops : list Op) (w0 w : World) :
  globalLimiter (ll w0) = Some p ->
  Forall (fun lc => LimitedConn.globalLimiter lc = Some p) (conns (ll w0)) ->
  run ops w0 = Ok w ->
  globalLimiter (ll w) = Some p /\
  Forall (fun lc => LimitedConn.globalLimiter lc = Some p) (conns (ll w)).
Proof.
  revert w0. induction ops as [|op ops IH]; intros w0 Hp Hcs Hrun; cbn in Hrun.
  - by injection Hrun as <-.
  - destruct op as [[rc err]|g c|conn]; cbn in Hrun.
    + eapply IH; [| |exact Hrun]; cbn; [done|].
      apply Forall_app. split; [done|]. by repeat constructor.
    + apply (IH (SetLimits g c w0)); [by apply SetLimits_keeps_globalLimiter| |done].
      unfold SetLimits. rewrite Hp.
      pose proof (SetLimits_loop_globals c (conns (ll w0))
                    (rlimit.SetLimit p (rlimit.LimitOf g) (store w0))) as Hgl.
      destruct (SetLimits_loop c (conns (ll w0)) _) as [h3 cs]. cbn in *.
      apply (Forall_fmap LimitedConn.globalLimiter (fun x => x = Some p)).
      rewrite Hgl. by apply Forall_fmap.
    + destruct (CloseConnection conn w0) as [w1|] eqn:Hclose; [|discriminate].
      apply CloseConnection_Ok_inv in Hclose as (lc & rc & _ & _ & ->).
      eapply IH; [| |exact Hrun]; cbn; [done|].
      by apply CloseConnection_loop_Forall.
Qed.

Lemma global_limiter_is_shared_witness :
  exists w,
    run [OpAccept (Some 7%nat, None); OpSetLimits 20 7; OpAccept (Some 8%nat, None)]
        (SetLimits 10 5 (NewWithListener 0)) = Ok w /\
    globalLimiter (ll w) = Some 0%nat /\
    Forall (fun lc => LimitedConn.globalLimiter lc = Some 0%nat) (conns (ll w)).
Proof.
  eexists. split; [reflexivity|].
  apply (global_limiter_is_shared 0
           [OpAccept (Some 7%nat, None); OpSetLimits 20 7; OpAccept (Some 8%nat, None)]
           (SetLimits 10 5 (NewWithListener 0))).
  - reflexivity.
  - constructor.
  - reflexivity.
Defined.

(** ** How SetLimits composes *)

Lemma World_ext (w1 w2 : World) :
  store w1 = store w2 ->
  n_conns (ll w1) = n_conns (ll w2) ->
  listener (ll w1) = listener (ll w2) ->
  globalLimiter (ll w1) = globalLimiter (ll w2) ->
  connLimit (ll w1) = connLimit (ll w2) ->
  mtu (ll w1) = mtu (ll w2) ->
  conns (ll w1) = conns (ll w2) ->
  closed w1 = closed w2 ->
  w1 = w2.
Proof.
  destruct w1 as [s1 [] c1], w2 as [s2 [] c2]. cbn. by intros; subst.
Qed.

(** The store after [SetLimits], limiter by limiter: [G] is the global
    limiter after the call and [base] the store once it exists. *)
Lemma SetLimits_lookup (g c : Z) (w : World) :
  registered w ->
  exists G base,
    globalLimiter (ll (SetLimits g c w)) = Some G /\
    (match globalLimiter (ll w) with
     | Some p => G = p /\ base = store w
     | None => G = length (store w) /\
               base = store w ++ [rlimit.mkLimiter (rlimit.LimitOf g) (mtu (ll w))]
     end) /\
    (Some G ∉ LimitedConn.connLimiter <$> conns (ll w)) /\
    length (store (SetLimits g c w)) = length base /\
    forall q,
      store (SetLimits g c w) !! q =
        (if decide (Some q ∈ LimitedConn.connLimiter <$> conns (ll w))
         then rlimit.with_limit (rlimit.LimitOf c)
         else if decide (q = G) then rlimit.with_limit (rlimit.LimitOf g)
         else id) <$> base !! q.
Proof.
  intros Hreg.
  destruct (SetLimits_effect g c w Hreg)
    as (Hglob & _ & Hcs & (_ & _ & _ & Hconns & _) & Hother & _ & _).
  rewrite Hconns in Hcs. destruct Hreg as [Hg Hrefs].
  set (base := match globalLimiter (ll w) with
               | Some _ => store w
               | None => store w ++ [rlimit.mkLimiter (rlimit.LimitOf g) (mtu (ll w))]
               end).
  assert (Hbase : forall q, q < length (store w) -> base !! q = store w !! q).
  { intros q Hq. subst base. destruct (globalLimiter (ll w)); [done|].
    by rewrite lookup_app_l. }
  assert (Hin : forall q, Some q ∈ LimitedConn.connLimiter <$> conns (ll w) ->
            q < length (store w) /\ globalLimiter (ll w) <> Some q /\
            exists old, store w !! q = Some old /\
              store (SetLimits g c w) !! q
              = Some (rlimit.mkLimiter (rlimit.LimitOf c) (rlimit.burst old))).
  { intros q (lc & Hq & Hlc)%list_elem_of_fmap.
    rewrite Forall_forall in Hrefs, Hcs.
    destruct (Hrefs lc Hlc) as (p & Hp & Hlt & Hne).
    destruct (Hcs lc Hlc) as (p' & old & Hp' & Hold & Hnew).
    assert (p = q) as -> by congruence. assert (p' = q) as -> by congruence.
    split; [done|]. split; [done|]. by exists old. }
  destruct (globalLimiter (ll w)) as [p|] eqn:Hp.
  - destruct Hglob as (HG & (old & Hold & Hnew) & Hlen).
    exists p, base. split; [done|]. split; [done|].
    split; [intros Hq; by destruct (Hin p Hq) as (_ & Hne & _)|].
    split; [done|]. intros q.
    destruct (decide (Some q ∈ _)) as [Hq|Hq].
    + destruct (Hin q Hq) as (_ & _ & old' & Hold' & ->). subst base.
      by rewrite Hold'.
    + destruct (decide (q = p)) as [->|Hne].
      * subst base. by rewrite Hnew, Hold.
      * rewrite Hother; [|congruence|done]. subst base.
        by destruct (store w !! q).
  - destruct Hglob as (HG & Hnew & Hlen).
    exists (length (store w)), base. split; [done|]. split; [done|].
    split; [intros Hq; destruct (Hin _ Hq) as (? & _); lia|].
    split; [subst base; rewrite length_app; cbn; lia|]. intros q.
    destruct (decide (Some q ∈ _)) as [Hq|Hq].
    + destruct (Hin q Hq) as (Hlt & _ & old' & Hold' & ->).
      by rewrite (Hbase q Hlt), Hold'.
    + destruct (decide (q = length (store w))) as [->|Hne].
      * subst base. rewrite Hnew, list_lookup_middle by done. done.
      * rewrite Hother; [|congruence|done]. subst base.
        destruct (decide (q < length (store w))) as [Hlt|Hge].
        -- rewrite lookup_app_l by done. by destruct (store w !! q).
        -- rewrite (proj2 (lookup_ge_None (store w) q)) by lia.
           rewrite (proj2 (lookup_ge_None _ q)); [done|].
           rewrite length_app. cbn. lia.
Qed.

(** X11.  The last [SetLimits] wins: a call followed by a second call
    leaves the same world as the second call alone. *)
Theorem SetLimits_last_wins (g1 c1 g2 c2 : Z) (w : World) :
  registered w ->
  SetLimits g2 c2 (SetLimits g1 c1 w) = SetLimits g2 c2 w.
Proof.
  intros Hreg.
  pose proof (SetLimits_registered g1 c1 w Hreg) as Hreg1.
  destruct (SetLimits_effect g1 c1 w Hreg)
    as (_ & _ & _ & (Hn1 & Hl1 & Hm1 & Hcs1 & Hcl1) & _).
  destruct (SetLimits_effect g2 c2 w Hreg)
    as (_ & Hc2 & _ & (Hn2 & Hl2 & Hm2 & Hcs2 & Hcl2) & _).
  destruct (SetLimits_effect g2 c2 _ Hreg1)
    as (_ & Hc3 & _ & (Hn3 & Hl3 & Hm3 & Hcs3 & Hcl3) & _).
  destruct (SetLimits_lookup g1 c1 w Hreg) as (G1 & b1 & HG1 & Hb1 & Hnot1 & Hlen1 & Hs1).
  destruct (SetLimits_lookup g2 c2 w Hreg) as (G2 & b2 & HG2 & Hb2 & Hnot2 & Hlen2 & Hs2).
  destruct (SetLimits_lookup g2 c2 _ Hreg1) as (G3 & b3 & HG3 & Hb3 & _ & Hlen3 & Hs3).
  rewrite HG1 in Hb3. destruct Hb3 as [-> ->]. rewrite Hcs1 in Hs3.
  assert (HG : G1 = G2 /\ length b1 = length b2 /\
               forall q, q <> G1 -> b1 !! q = b2 !! q).
  { destruct (globalLimiter (ll w)).
    - destruct Hb1 as [-> ->], Hb2 as [-> ->]. done.
    - destruct Hb1 as [-> ->], Hb2 as [-> ->]. rewrite !length_app. cbn.
      split; [done|]. split; [done|]. intros q Hq.
      destruct (decide (q < length (store w))) as [Hlt|Hge].
      + by rewrite !lookup_app_l.
      + rewrite !(proj2 (lookup_ge_None _ q)); [done|..]; rewrite length_app; cbn; lia. }
  destruct HG as (<- & Hlenb & Hbq).
  apply World_ext; try congruence.
  apply list_eq. intros q. rewrite Hs3, Hs1, Hs2.
  destruct (decide (Some q ∈ _)) as [Hq|Hq].
  - rewrite Hbq by (intros ->; done). by destruct (b2 !! q).
  - destruct (decide (q = G1)) as [->|Hne].
    + destruct (globalLimiter (ll w)).
      * destruct Hb1 as [_ ->], Hb2 as [_ ->]. by destruct (store w !! G1).
      * destruct Hb1 as [-> ->], Hb2 as [_ ->].
        by rewrite !list_lookup_middle.
    + rewrite Hbq by done. by destruct (b2 !! q).
Qed.

Lemma SetLimits_last_wins_witness :
  SetLimits 20 7 (SetLimits 30 9 Samples.two_conns) = SetLimits 20 7 Samples.two_conns.
Proof.
  apply (SetLimits_last_wins 30 9 20 7 Samples.two_conns).
  split.
  - intros g [= <-]. cbn. lia.
  - repeat constructor; eexists; (split; [reflexivity|]);
      (split; [cbn; lia|discriminate]).
Defined.

Lemma Accept_eq (rc : option RawConn) (err : option error) (w : World) :
  Accept (rc, err) w =
    (mkWorld
       (store w ++ [rlimit.mkLimiter (rlimit.LimitOf (connLimit (ll w))) (mtu (ll w))])
       (mk (int_wrap (n_conns (ll w) + 1)) (listener (ll w)) (globalLimiter (ll w))
           (connLimit (ll w)) (mtu (ll w))
           (conns (ll w) ++
              [LimitedConn.mk (n_conns (ll w)) rc (globalLimiter (ll w))
                 (Some (length (store w))) (mtu (ll w))]))
       (closed w),
     (AsLimitedConn
        (LimitedConn.mk (n_conns (ll w)) rc (globalLimiter (ll w))
           (Some (length (store w))) (mtu (ll w))),
      err)).
Proof. reflexivity. Qed.

(** X12.  On a listener that has its global limiter, [Accept] and
    [SetLimits] commute: a connection accepted just before a [SetLimits]
    ends up exactly like one accepted just after it (same world, same
    returned connection). *)
Theorem Accept_SetLimits_commute
    (g c : Z) (raw : option RawConn * option error) (w : World) (p : rlimit.Ref) :
  registered w ->
  globalLimiter (ll w) = Some p ->
  Accept raw (SetLimits g c w) = (SetLimits g c (Accept raw w).1, (Accept raw w).2).
Proof.
  intros Hreg Hp. destruct raw as [rc err].
  pose proof (Accept_registered (rc, err) w Hreg) as Hrega.
  rewrite !Accept_eq in *. cbn [fst snd] in *.
  destruct (SetLimits_effect g c w Hreg)
    as (Hglob & Hc & _ & (Hn & Hl & Hm & Hcs & Hcl) & _).
  rewrite Hp in Hglob. destruct Hglob as (Hps & _ & Hlen).
  destruct (SetLimits_lookup g c w Hreg) as (G & b & HG & Hb & _ & _ & Hs).
  rewrite Hp in Hb. destruct Hb as [-> ->].
  rewrite Hps, Hc, Hm, Hn, Hl, Hcs, Hcl, Hlen, Hp. rewrite Hp in Hrega.
  set (wa := mkWorld _ _ _) in Hrega |- *.
  destruct (SetLimits_effect g c wa Hrega)
    as (Hgloba & Hca & _ & (Hna & Hla & Hma & Hcsa & Hcla) & _).
  change (globalLimiter (ll wa)) with (Some p) in Hgloba.
  destruct Hgloba as (Hpa & _ & Hlena).
  destruct (SetLimits_lookup g c wa Hrega) as (G & b & _ & Hb & _ & _ & Hsa).
  change (globalLimiter (ll wa)) with (Some p) in Hb. destruct Hb as [-> ->].
  f_equal. apply World_ext; cbn [store ll n_conns listener globalLimiter connLimit
                                  mtu conns closed];
    [|by rewrite Hna|by rewrite Hla|by rewrite Hpa|by rewrite Hca|by rewrite Hma
     |by rewrite Hcsa|by rewrite Hcla].
  apply list_eq. intros q. rewrite Hsa. subst wa.
  cbn [store ll conns].
  destruct (decide (q < length (store w))) as [Hlt|Hge].
  - rewrite !lookup_app_l by lia. rewrite Hs.
    destruct (decide (Some q ∈ _)) as [Hq|Hq], (decide (Some q ∈ _)) as [Hq'|Hq'];
      try done.
    + destruct Hq'. rewrite fmap_app, elem_of_app. by left.
    + destruct Hq. rewrite fmap_app, elem_of_app in Hq'.
      destruct Hq' as [Hq'|Hq']; [done|].
      cbn in Hq'. apply list_elem_of_singleton in Hq'. injection Hq' as ->. lia.
  - destruct (decide (q = length (store w))) as [->|Hne].
    + rewrite <- Hlen at 1. rewrite !list_lookup_middle by done.
      destruct (decide (Some (length (store w)) ∈ _)) as [Hq|Hq]; [done|].
      destruct Hq. rewrite fmap_app, elem_of_app. right. cbn. left.
    + rewrite !(proj2 (lookup_ge_None _ q)); [by destruct (decide _)|..];
        rewrite length_app; cbn; lia.
Qed.

Lemma Accept_SetLimits_commute_witness :
  Accept (Some 9%nat, None) (SetLimits 20 7 Samples.two_conns)
  = (SetLimits 20 7 (Accept (Some 9%nat, None) Samples.two_conns).1,
     (Accept (Some 9%nat, None) Samples.two_conns).2).
Proof.
  apply (Accept_SetLimits_commute 20 7 (Some 9%nat, None) Samples.two_conns 1).
  - split.
    + intros g [= <-]. cbn. lia.
    + repeat constructor; eexists; (split; [reflexivity|]);
        (split; [cbn; lia|discriminate]).
  - reflexivity.
Defined.

(** ** More on Write *)

Section WriteMore.

Variable env : LimitedConn.WriteEnv.
Variable lc : LimitedConn.t.
Hypothesis mtu_pos : (0 < LimitedConn.mtu lc)%Z.

Local Abbreviation m := (Z.to_nat (LimitedConn.mtu lc)).

(** One iteration whose raw write fails. *)
Lemma Write_loop_raw_fails (fuel k : nat) (b : list byte) (n w : Z)
    (err : option error) (sent : list (list byte)) (rc : RawConn) (e : error) :
  b <> [] ->
  LimitedConn.conn lc = Some rc ->
  LimitedConn.waitN env k lc (len (take m b)) = Ok None ->
  LimitedConn.rawWrite env k (take m b) = (w, Some e) ->
  LimitedConn.Write_loop env lc (S fuel) k b n err sent
  = (sent ++ [take m b], LimitedConn.Returned 0 (Some e)).
Proof.
  intros Hb Hrc Hwait Hraw. cbn [LimitedConn.Write_loop].
  destruct (Z.ltb_spec 0 (len b)) as [_|Hle].
  - destruct (next_chunk_pos lc mtu_pos b) as [-> _]. by rewrite Hwait, Hrc, Hraw.
  - destruct b; [done|]. unfold len in Hle. cbn in Hle. lia.
Qed.

(** The loop when the raw write of the [j]-th chunk from here fails. *)
Lemma Write_loop_raw_abort (j : nat) :
  forall (fuel k : nat) (b : list byte) (n w : Z) (err : option error)
         (sent : list (list byte)) (e : error) (rc : RawConn),
  LimitedConn.conn lc = Some rc ->
  j < fuel ->
  j * m < length b ->
  (forall i, i < j ->
     LimitedConn.waitN env (k + i) lc (len (LimitedConn.chunk_at m b i)) = Ok None /\
     (LimitedConn.rawWrite env (k + i) (LimitedConn.chunk_at m b i)).2 = None) ->
  LimitedConn.waitN env (k + j) lc (len (LimitedConn.chunk_at m b j)) = Ok None ->
  LimitedConn.rawWrite env (k + j) (LimitedConn.chunk_at m b j) = (w, Some e) ->
  LimitedConn.Write_loop env lc fuel k b n err sent
  = (sent ++ (LimitedConn.chunk_at m b <$> seq 0 (S j)),
     LimitedConn.Returned 0 (Some e)).
Proof.
  pose proof (m_pos lc mtu_pos) as Hm.
  induction j as [|j IH]; intros fuel k b n w err sent e rc Hrc Hfuel Hlen Hok Hwait Hraw.
  - destruct fuel as [|fuel]; [lia|].
    rewrite Nat.add_0_r in Hwait, Hraw.
    rewrite (Write_loop_raw_fails _ _ _ _ w _ _ rc e); [done| |done..].
    intros ->. cbn in Hlen. lia.
  - destruct fuel as [|fuel]; [lia|].
    destruct (Hok 0) as [Hw0 Hr0]; [lia|].
    rewrite Nat.add_0_r in Hw0, Hr0.
    destruct (LimitedConn.rawWrite env k (LimitedConn.chunk_at m b 0)) as [w0 werr] eqn:Hraw0.
    cbn in Hr0. subst werr.
    rewrite (Write_loop_chunk_sent env lc mtu_pos _ _ _ _ w0 _ _ rc);
      [|intros ->; cbn in Hlen; lia|done..].
    rewrite (IH _ _ _ _ w _ _ e rc); [|done|lia|..].
    + rewrite <- app_assoc. cbn [app]. do 2 f_equal.
      change (seq 0 (S (S j))) with (0 :: seq 1 (S j)).
      rewrite fmap_cons. f_equal.
      rewrite <- fmap_S_seq, <- list_fmap_compose.
      apply list_fmap_ext. intros _ i _. apply (chunk_at_S lc).
    + rewrite length_drop. cbn in Hlen. lia.
    + intros i Hi. rewrite (chunk_at_S lc).
      replace (S k + i) with (k + S i) by lia. apply Hok. lia.
    + rewrite (chunk_at_S lc). replace (S k + j) with (k + S j) by lia. done.
    + rewrite (chunk_at_S lc). replace (S k + j) with (k + S j) by lia. done.
Qed.

End WriteMore.

(** X13.  When the raw write of chunk [j] fails (everything before it
    having gone through), [Write] returns [(0, err)] with the error of
    the raw connection and stops: the raw connection was handed chunks
    [0 .. j], the failing one included, and nothing after them; the
    count of the chunks written before is not reported. *)
Theorem Write_raw_failure_returns_zero
    (env : LimitedConn.WriteEnv) (lc : LimitedConn.t) (b : list byte)
    (fuel j : nat) (w : Z) (e : error) (rc : RawConn) :
  let m := Z.to_nat (LimitedConn.mtu lc) in
  (0 < LimitedConn.mtu lc)%Z ->
  LimitedConn.conn lc = Some rc ->
  j < fuel ->
  j * m < length b ->
  (forall i, i < j ->
     LimitedConn.waitN env i lc (len (LimitedConn.chunk_at m b i)) = Ok None /\
     (LimitedConn.rawWrite env i (LimitedConn.chunk_at m b i)).2 = None) ->
  LimitedConn.waitN env j lc (len (LimitedConn.chunk_at m b j)) = Ok None ->
  LimitedConn.rawWrite env j (LimitedConn.chunk_at m b j) = (w, Some e) ->
  LimitedConn.Write env lc fuel b
  = (LimitedConn.chunk_at m b <$> seq 0 (S j), LimitedConn.Returned 0 (Some e)).
Proof.
  intros m Hm Hrc Hfuel Hlen Hok Hwait Hraw. unfold LimitedConn.Write.
  by rewrite (Write_loop_raw_abort env lc Hm j fuel 0 b 0 w None [] e rc).
Qed.

Lemma Write_raw_failure_returns_zero_witness :
  LimitedConn.Write
    (LimitedConn.mkEnv (fun _ _ => None) (fun _ _ => None) (fun _ => true)
       (fun k s => if Nat.eqb k 1 then (1%Z, Some "broken pipe"%string)
                   else (len s, None))
       (fun _ => false))
    Samples.conn2 6 Samples.five_bytes
  = ([[x01; x02]; [x03; x04]]%byte, LimitedConn.Returned 0 (Some "broken pipe"%string)).
Proof.
  apply (Write_raw_failure_returns_zero _ Samples.conn2 Samples.five_bytes 6 1 1
           "broken pipe"%string 7%nat).
  - cbn. lia.
  - reflexivity.
  - lia.
  - cbn. lia.
  - intros i Hi. assert (i = 0%nat) as -> by lia. split; reflexivity.
  - reflexivity.
  - reflexivity.
Defined.

Lemma length_concat_le (m : nat) (cs : list (list byte)) :
  Forall (fun s => length s <= m) cs -> length (concat cs) <= length cs * m.
Proof.
  induction 1 as [|s cs Hs _ IH]; [done|].
  cbn. rewrite length_app. lia.
Qed.

(** X14.  A [Write] that goes through makes exactly ceil(len(b) / mtu)
    joint waits and raw writes, and every slice but the last has exactly
    the chunk size. *)
Theorem Write_chunk_count
    (env : LimitedConn.WriteEnv) (lc : LimitedConn.t) (b : list byte)
    (fuel : nat) (rc : RawConn) :
  let m := Z.to_nat (LimitedConn.mtu lc) in
  (0 < LimitedConn.mtu lc)%Z ->
  LimitedConn.conn lc = Some rc ->
  length b < fuel ->
  (forall i, i * m < length b ->
     LimitedConn.waitN env i lc (len (LimitedConn.chunk_at m b i)) = Ok None /\
     LimitedConn.rawWrite env i (LimitedConn.chunk_at m b i)
     = (len (LimitedConn.chunk_at m b i), None)) ->
  exists cs,
    LimitedConn.Write env lc fuel b
    = (cs, LimitedConn.Returned (int_wrap (len b)) None) /\
    length cs = (length b + m - 1) / m /\
    (forall i s, cs !! i = Some s -> S i < length cs -> length s = m).
Proof.
  intros m Hm Hrc Hfuel Hok. unfold LimitedConn.Write.
  destruct (Write_loop_complete env lc Hm fuel 0 b 0 0 [] rc Hrc Hfuel eq_refl Hok)
    as (cs & Hrun & Hcat & Hcs).
  exists cs. split; [exact Hrun|].
  assert (Hmpos : 0 < m) by (subst m; lia).
  assert (Hnonempty : forall i, i < length cs -> i * m < length b).
  { intros i Hi. destruct (lookup_lt_is_Some_2 cs i Hi) as [s Hs].
    destruct (Hcs i s Hs) as [-> Hne].
    destruct (decide (i * m < length b)) as [|Hge]; [done|].
    destruct Hne. unfold LimitedConn.chunk_at. fold m.
    rewrite drop_ge by lia. apply take_nil. }
  assert (Hle : length b <= length cs * m).
  { rewrite <- Hcat at 1. apply length_concat_le, Forall_lookup.
    intros i s Hs. destruct (Hcs i s Hs) as [-> _].
    unfold LimitedConn.chunk_at. rewrite length_take. lia. }
  split.
  - destruct (length cs) as [|n] eqn:Hn.
    + assert (length b = 0) as -> by lia. cbn. symmetry. apply Nat.div_small. lia.
    + specialize (Hnonempty n ltac:(lia)).
      apply (Nat.div_unique _ _ _ (length b + m - 1 - m * S n)); nia.
  - intros i s Hs Hi. destruct (Hcs i s Hs) as [-> _].
    specialize (Hnonempty (S i) Hi).
    unfold LimitedConn.chunk_at. fold m. rewrite length_take, length_drop. nia.
Qed.

Lemma Write_chunk_count_witness :
  exists cs,
    LimitedConn.Write Samples.env_ok Samples.conn2 6 Samples.five_bytes
    = (cs, LimitedConn.Returned 5 None) /\
    length cs = 3.
Proof.
  destruct (Write_chunk_count Samples.env_ok Samples.conn2 Samples.five_bytes 6 7%nat)
    as (cs & Hrun & Hlen & _).
  - cbn. lia.
  - reflexivity.
  - cbn. lia.
  - intros i _. split; reflexivity.
  - exists cs. split; [exact Hrun|exact Hlen].
Defined.

(** X15.  [Write] needs a positive chunk size.  With a negative [mtu] the
    first slice expression panics before anything is sent; with [mtu]
    zero the loop takes empty slices for ever: while the waits and the
    raw writes succeed, it never returns. *)
Theorem Write_nonpositive_chunk
    (env : LimitedConn.WriteEnv) (lc : LimitedConn.t) (b : list byte)
    (rc : RawConn) (pc pg : rlimit.Ref) :
  b <> [] ->
  ((LimitedConn.mtu lc < 0)%Z ->
   forall fuel, LimitedConn.Write env lc (S fuel) b = ([], LimitedConn.Panicked)) /\
  (LimitedConn.mtu lc = 0%Z ->
   LimitedConn.conn lc = Some rc ->
   LimitedConn.connLimiter lc = Some pc ->
   LimitedConn.globalLimiter lc = Some pg ->
   (forall k n, LimitedConn.connWaitN env k n = None) ->
   (forall k n, LimitedConn.globalWaitN env k n = None) ->
   (forall k s, (LimitedConn.rawWrite env k s).2 = None) ->
   forall fuel, (LimitedConn.Write env lc fuel b).2 = LimitedConn.OutOfFuel).
Proof.
  intros Hb. split.
  - intros Hneg fuel. unfold LimitedConn.Write. cbn [LimitedConn.Write_loop].
    assert (Hlen : (0 < len b)%Z) by (destruct b; [done|unfold len; cbn; lia]).
    destruct (Z.ltb_spec 0 (len b)) as [_|?]; [|lia].
    unfold LimitedConn.next_chunk.
    destruct (Z.ltb_spec (LimitedConn.mtu lc) (len b)) as [_|?]; [|lia].
    destruct (Z.ltb_spec (LimitedConn.mtu lc) 0) as [_|?]; [done|lia].
  - intros Hm Hrc Hpc Hpg Hc Hg Hraw fuel.
    by apply (Write_zero_chunk_never_returns env lc rc pc pg).
Qed.

Lemma Write_nonpositive_chunk_witness :
  LimitedConn.Write Samples.env_ok
    (LimitedConn.mk 0 (Some 7%nat) (Some 0%nat) (Some 1%nat) (-1)) 6 Samples.five_bytes
  = ([], LimitedConn.Panicked) /\
  (LimitedConn.Write Samples.env_ok
     (LimitedConn.mk 0 (Some 7%nat) (Some 0%nat) (Some 1%nat) 0) 100 Samples.five_bytes).2
  = LimitedConn.OutOfFuel.
Proof.
  split.
  - apply (Write_nonpositive_chunk Samples.env_ok
             (LimitedConn.mk 0 (Some 7%nat) (Some 0%nat) (Some 1%nat) (-1))
             Samples.five_bytes 7%nat 1 0); first [discriminate|reflexivity].
  - apply (Write_nonpositive_chunk Samples.env_ok
             (LimitedConn.mk 0 (Some 7%nat) (Some 0%nat) (Some 1%nat) 0)
             Samples.five_bytes 7%nat 1 0); first [discriminate|reflexivity].
Defined.

Lemma range_done_single (c : option error) : LimitedConn.range_done [c] = c.
Proof. by destruct c. Qed.

(** With a nil global limiter: the process is dead before [waitN]
    returns, or [waitN] returns what the per-connection limiter said. *)
Lemma waitN_nil_global
    (env : LimitedConn.WriteEnv) (k : nat) (lc : LimitedConn.t) (n : Z)
    (pc : rlimit.Ref) :
  LimitedConn.connLimiter lc = Some pc ->
  LimitedConn.globalLimiter lc = None ->
  LimitedConn.waitN env k lc n
  = if LimitedConn.dies env k then Panic else Ok (LimitedConn.connWaitN env k n).
Proof.
  intros Hpc Hg. unfold LimitedConn.waitN, LimitedConn.done_chan_nil.
  rewrite Hpc, Hg. by rewrite range_done_single.
Qed.

(** With both limiters in place and a global limiter that grants:
    [waitN] returns what the per-connection limiter said. *)
Lemma waitN_global_grants
    (env : LimitedConn.WriteEnv) (k : nat) (lc : LimitedConn.t) (n : Z)
    (pc pg : rlimit.Ref) :
  LimitedConn.connLimiter lc = Some pc ->
  LimitedConn.globalLimiter lc = Some pg ->
  LimitedConn.globalWaitN env k n = None ->
  LimitedConn.waitN env k lc n = Ok (LimitedConn.connWaitN env k n).
Proof.
  intros Hpc Hpg Hg. unfold LimitedConn.waitN, LimitedConn.done_chan.
  rewrite Hpc, Hpg, Hg.
  by destruct (LimitedConn.connFirst env k), (LimitedConn.connWaitN env k n).
Qed.

Lemma Write_loop_extends
    (env : LimitedConn.WriteEnv) (lc : LimitedConn.t) (fuel : nat) :
  forall (k : nat) (b : list byte) (n : Z) (err : option error)
         (sent : list (list byte)),
  sent `prefix_of` (LimitedConn.Write_loop env lc fuel k b n err sent).1.
Proof.
  induction fuel as [|fuel IH]; intros k b n err sent; [done|].
  cbn [LimitedConn.Write_loop].
  destruct (0 <? len b)%Z; [|done].
  destruct (LimitedConn.next_chunk _ b) as [s|]; [|done].
  destruct (LimitedConn.waitN env k lc _) as [[e|]|]; [done| |done].
  destruct (LimitedConn.conn lc); [|done].
  destruct (LimitedConn.rawWrite env k s) as [w [e|]].
  - by apply prefix_app_r.
  - etrans; [|apply IH]. by apply prefix_app_r.
Qed.

(** The loop of [Write] on a connection without global limiter, beside
    the loop on a connection alike whose global limiter always grants. *)
Lemma Write_loop_nil_global
    (env : LimitedConn.WriteEnv) (lc : LimitedConn.t) (pc : rlimit.Ref) (fuel : nat) :
  LimitedConn.connLimiter lc = Some pc ->
  LimitedConn.globalLimiter lc = None ->
  forall (k : nat) (b : list byte) (n : Z) (err : option error)
         (sent : list (list byte)),
  let granted :=
    LimitedConn.mkEnv (LimitedConn.connWaitN env) (fun _ _ => None)
      (LimitedConn.connFirst env) (LimitedConn.rawWrite env) (LimitedConn.dies env) in
  let lc' :=
    LimitedConn.mk (LimitedConn.id lc) (LimitedConn.conn lc) (Some 0%nat)
      (LimitedConn.connLimiter lc) (LimitedConn.mtu lc) in
  let r := LimitedConn.Write_loop env lc fuel k b n err sent in
  let r' := LimitedConn.Write_loop granted lc' fuel k b n err sent in
  r = r' \/
  (r.2 = LimitedConn.Panicked /\ r.1 `prefix_of` r'.1 /\
   exists k', LimitedConn.dies env k' = true).
Proof.
  intros Hpc Hg. induction fuel as [|fuel IH]; intros k b n err sent; [by left|].
  cbn zeta. cbn [LimitedConn.Write_loop LimitedConn.mtu LimitedConn.conn
                 LimitedConn.rawWrite].
  destruct (0 <? len b)%Z; [|by left].
  destruct (LimitedConn.next_chunk _ b) as [s|]; [|by left].
  rewrite (waitN_nil_global env k lc _ pc Hpc Hg).
  rewrite (waitN_global_grants _ k _ _ pc 0%nat); [|by rewrite Hpc|done..].
  cbn [LimitedConn.connWaitN].
  destruct (LimitedConn.dies env k) eqn:Hdies.
  - right. cbn [fst snd]. split; [done|]. split; [|by exists k].
    destruct (LimitedConn.connWaitN env k (len s)); [done|].
    destruct (LimitedConn.conn lc); [|done].
    destruct (LimitedConn.rawWrite env k s) as [w [e|]]; cbn [fst].
    + by apply prefix_app_r.
    + etrans; [|apply Write_loop_extends]. by apply prefix_app_r.
  - destruct (LimitedConn.connWaitN env k (len s)); [by left|].
    destruct (LimitedConn.conn lc); [|by left].
    destruct (LimitedConn.rawWrite env k s) as [w [e|]]; [by left|].
    apply IH.
Qed.

(** X16.  The connection [Accept] returns while the listener has no
    global limiter carries a nil global limiter.  Each joint wait of its
    [Write] then dereferences nil in a goroutine, which kills the
    process at a moment the scheduler chooses: the call either ends in
    that death, having sent a prefix of the slices, or proceeds exactly
    as on a connection whose global limiter grants every request, that
    is without any global throttling.  When the process is dead before
    the first wait returns, nothing is sent. *)
Theorem Write_on_conn_accepted_without_global
    (w : World) (raw : option RawConn * option error) (lc : LimitedConn.t)
    (env : LimitedConn.WriteEnv) (fuel : nat) (b : list byte) :
  globalLimiter (ll w) = None ->
  (Accept raw w).2.1 = AsLimitedConn lc ->
  let granted :=
    LimitedConn.mkEnv (LimitedConn.connWaitN env) (fun _ _ => None)
      (LimitedConn.connFirst env) (LimitedConn.rawWrite env) (LimitedConn.dies env) in
  let lc' :=
    LimitedConn.mk (LimitedConn.id lc) (LimitedConn.conn lc) (Some 0%nat)
      (LimitedConn.connLimiter lc) (LimitedConn.mtu lc) in
  let r := LimitedConn.Write env lc fuel b in
  let r' := LimitedConn.Write granted lc' fuel b in
  LimitedConn.globalLimiter lc = None /\
  (r = r' \/
   (r.2 = LimitedConn.Panicked /\ r.1 `prefix_of` r'.1 /\
    exists k, LimitedConn.dies env k = true)) /\
  ((forall k, LimitedConn.dies env k = false) -> r = r') /\
  (LimitedConn.dies env 0 = true -> b <> [] -> 0 < fuel ->
   r = ([], LimitedConn.Panicked)).
Proof.
  intros Hg Hlc. destruct raw as [rc err]. rewrite Accept_eq in Hlc.
  cbn in Hlc. injection Hlc as <-. rewrite Hg. cbn zeta.
  set (lc := LimitedConn.mk _ _ None _ _).
  pose proof (Write_loop_nil_global env lc (length (store w)) fuel eq_refl eq_refl
                0 b 0%Z None []) as Hloop.
  cbn zeta in Hloop. unfold LimitedConn.Write.
  split; [done|]. split; [exact Hloop|]. split.
  - intros Hlive. destruct Hloop as [Heq|(_ & _ & k & Hk)]; [exact Heq|].
    by rewrite Hlive in Hk.
  - intros Hdies Hb Hfuel. destruct fuel as [|fuel]; [lia|].
    cbn [LimitedConn.Write_loop].
    destruct (Z.ltb_spec 0 (len b)) as [_|Hlen].
    + destruct (LimitedConn.next_chunk _ b) as [s|]; [|done].
      by rewrite (waitN_nil_global env 0 lc _ (length (store w))), Hdies.
    + destruct b; [done|]. unfold len in Hlen. cbn in Hlen. lia.
Qed.

Lemma Write_on_conn_accepted_without_global_witness :
  LimitedConn.Write Samples.env_ok
    (LimitedConn.mk 0 (Some 7%nat) None (Some 0%nat) 1024) 6 Samples.five_bytes
  = ([Samples.five_bytes], LimitedConn.Returned 5 None) /\
  LimitedConn.Write
    (LimitedConn.mkEnv (fun _ _ => None) (fun _ _ => None) (fun _ => true)
       (fun _ s => (len s, None)) (fun _ => true))
    (LimitedConn.mk 0 (Some 7%nat) None (Some 0%nat) 1024) 6 Samples.five_bytes
  = ([], LimitedConn.Panicked).
Proof.
  split.
  - apply (Write_on_conn_accepted_without_global (NewWithListener 0) (Some 7%nat, None)
             (LimitedConn.mk 0 (Some 7%nat) None (Some 0%nat) 1024)
             Samples.env_ok 6 Samples.five_bytes eq_refl eq_refl).
    intros k. reflexivity.
  - apply (Write_on_conn_accepted_without_global (NewWithListener 0) (Some 7%nat, None)
             (LimitedConn.mk 0 (Some 7%nat) None (Some 0%nat) 1024)
             (LimitedConn.mkEnv (fun _ _ => None) (fun _ _ => None) (fun _ => true)
                (fun _ s => (len s, None)) (fun _ => true))
             6 Samples.five_bytes eq_refl eq_refl).
    + reflexivity.
    + discriminate.
    + lia.
Defined.

(** X17.  On a connection that holds both limiters, the order in which
    the two goroutines of [waitN] report only matters when both waits
    fail: if at most one of them fails, [waitN] returns the same result
    for every schedule. *)
Theorem waitN_order_irrelevant
    (env env' : LimitedConn.WriteEnv) (k : nat) (lc : LimitedConn.t) (n : Z)
    (pc pg : rlimit.Ref) :
  LimitedConn.connLimiter lc = Some pc ->
  LimitedConn.globalLimiter lc = Some pg ->
  LimitedConn.connWaitN env k n = LimitedConn.connWaitN env' k n ->
  LimitedConn.globalWaitN env k n = LimitedConn.globalWaitN env' k n ->
  LimitedConn.connWaitN env k n = None \/ LimitedConn.globalWaitN env k n = None ->
  LimitedConn.waitN env k lc n = LimitedConn.waitN env' k lc n.
Proof.
  intros Hpc Hpg Hc Hg Hone. unfold LimitedConn.waitN, LimitedConn.done_chan.
  rewrite Hpc, Hpg, <- Hc, <- Hg.
  destruct (LimitedConn.connFirst env k), (LimitedConn.connFirst env' k),
    (LimitedConn.connWaitN env k n), (LimitedConn.globalWaitN env k n);
    cbn; try done; by destruct Hone.
Qed.

Lemma waitN_order_irrelevant_witness :
  LimitedConn.waitN (Samples.env_cancel 0) 0 Samples.conn2 2
  = LimitedConn.waitN
      (LimitedConn.mkEnv (fun _ _ => None)
         (fun _ _ => Some "context canceled"%string) (fun _ => true)
         (fun _ s => (len s, None)) (fun _ => false))
      0 Samples.conn2 2.
Proof.
  apply (waitN_order_irrelevant _ _ 0 Samples.conn2 2 1 0);
    [reflexivity|reflexivity|reflexivity|reflexivity|left; reflexivity].
Defined.

(** Whatever happens, the loop of [Write] hands the raw connection
    consecutive chunks of what is left, in order. *)
Lemma Write_loop_sends_chunks
    (env : LimitedConn.WriteEnv) (lc : LimitedConn.t) (fuel : nat) :
  (0 < LimitedConn.mtu lc)%Z ->
  forall (k : nat) (b : list byte) (n : Z) (err : option error)
         (sent : list (list byte)),
  exists cs rest,
    (LimitedConn.Write_loop env lc fuel k b n err sent).1 = sent ++ cs /\
    b = concat cs ++ rest /\
    (forall i s, cs !! i = Some s ->
       s = LimitedConn.chunk_at (Z.to_nat (LimitedConn.mtu lc)) b i /\ s <> []).
Proof.
  intros Hm. pose proof (m_pos lc Hm) as Hmpos.
  assert (Hnil : forall (b : list byte) (sent : list (list byte)),
            exists cs rest, sent = sent ++ cs /\ b = concat cs ++ rest /\
              (forall i s, cs !! i = Some s ->
                 s = LimitedConn.chunk_at (Z.to_nat (LimitedConn.mtu lc)) b i /\ s <> [])).
  { intros b sent. exists [], b. rewrite app_nil_r. split; [done|]. split; [done|].
    intros i s. by rewrite lookup_nil. }
  induction fuel as [|fuel IH]; intros k b n err sent; [apply Hnil|].
  cbn [LimitedConn.Write_loop].
  destruct (Z.ltb_spec 0 (len b)) as [Hlen|_]; [|apply Hnil].
  assert (Hb : b <> []) by (intros ->; unfold len in Hlen; cbn in Hlen; lia).
  destruct (next_chunk_pos lc Hm b) as [-> ->].
  destruct (LimitedConn.waitN env k lc _) as [[e|]|]; [apply Hnil| |apply Hnil].
  destruct (LimitedConn.conn lc); [|apply Hnil].
  assert (Hhead : take (Z.to_nat (LimitedConn.mtu lc)) b <> []).
  { destruct b; [done|]. destruct (Z.to_nat (LimitedConn.mtu lc)); [lia|done]. }
  destruct (LimitedConn.rawWrite env k _) as [w [e|]].
  - exists [take (Z.to_nat (LimitedConn.mtu lc)) b], (drop (Z.to_nat (LimitedConn.mtu lc)) b).
    split; [done|]. cbn. rewrite app_nil_r, take_drop. split; [done|].
    intros [|i] s Hs; cbn in Hs; [|done].
    injection Hs as <-. done.
  - destruct (IH (S k) (drop (Z.to_nat (LimitedConn.mtu lc)) b) (int_wrap (n + w)) None
                (sent ++ [take (Z.to_nat (LimitedConn.mtu lc)) b]))
      as (cs & rest & Hrun & Hb' & Hcs).
    exists (take (Z.to_nat (LimitedConn.mtu lc)) b :: cs), rest.
    split; [by rewrite Hrun, <- app_assoc|]. split.
    + cbn. rewrite <- app_assoc, <- Hb'. by rewrite take_drop.
    + intros [|i] s Hs; cbn in Hs.
      * injection Hs as <-. done.
      * rewrite <- (chunk_at_S lc). by apply Hcs.
Qed.

(** X18.  Under every behaviour of the limiters and of the raw
    connection, and however the call ends, [Write b] only ever hands the
    raw connection the chunks of [b], first to last without gap or
    repetition: the [i]-th slice sent is the [i]-th chunk, and the bytes
    sent so far are a prefix of [b]. *)
Theorem Write_sends_chunks_in_order
    (env : LimitedConn.WriteEnv) (lc : LimitedConn.t) (fuel : nat) (b : list byte) :
  let m := Z.to_nat (LimitedConn.mtu lc) in
  (0 < LimitedConn.mtu lc)%Z ->
  (forall i s, (LimitedConn.Write env lc fuel b).1 !! i = Some s ->
     s = LimitedConn.chunk_at m b i /\ 0 < length s <= m) /\
  concat (LimitedConn.Write env lc fuel b).1 `prefix_of` b.
Proof.
  intros m Hm. unfold LimitedConn.Write.
  destruct (Write_loop_sends_chunks env lc fuel Hm 0 b 0 None [])
    as (cs & rest & -> & Hb & Hcs).
  cbn [app]. split; [|by exists rest].
  intros i s Hs. destruct (Hcs i s Hs) as [-> Hne]. split; [done|]. split.
  - destruct (LimitedConn.chunk_at _ b i); [done|cbn; lia].
  - unfold LimitedConn.chunk_at. rewrite length_take. lia.
Qed.

Lemma Write_sends_chunks_in_order_witness :
  concat (LimitedConn.Write (Samples.env_cancel 2) Samples.conn2 6 Samples.five_bytes).1
  `prefix_of` Samples.five_bytes.
Proof.
  apply (Write_sends_chunks_in_order (Samples.env_cancel 2) Samples.conn2 6
           Samples.five_bytes).
  cbn. lia.
Defined.

Lemma next_chunk_Ok (m : Z) (b s : list byte) :
  LimitedConn.next_chunk m b = Ok s -> s ++ drop (length s) b = b.
Proof.
  unfold LimitedConn.next_chunk.
  destruct (m <? len b)%Z.
  - destruct (m <? 0)%Z; [done|]. intros [= <-].
    rewrite length_take.
    destruct (decide (Z.to_nat m <= length b)).
    + rewrite Nat.min_l by lia. apply take_drop.
    + rewrite Nat.min_r, take_ge, drop_all by lia. apply app_nil_r.
  - intros [= <-]. by rewrite drop_all, app_nil_r.
Qed.

Lemma Write_loop_result
    (env : LimitedConn.WriteEnv) (lc : LimitedConn.t) (fuel : nat) :
  forall (k : nat) (b : list byte) (n n' : Z) (err' : option error)
         (sent sent' : list (list byte)),
  LimitedConn.Write_loop env lc fuel k b n None sent
  = (sent', LimitedConn.Returned n' err') ->
  exists cs, sent' = sent ++ cs /\
    match err' with
    | Some _ => n' = 0%Z
    | None => concat cs = b
    end.
Proof.
  induction fuel as [|fuel IH]; intros k b n n' err' sent sent' Hrun; [done|].
  cbn [LimitedConn.Write_loop] in Hrun.
  destruct (Z.ltb_spec 0 (len b)) as [Hlen|Hlen].
  - destruct (LimitedConn.next_chunk (LimitedConn.mtu lc) b) as [s|] eqn:Hs; [|done].
    apply next_chunk_Ok in Hs.
    destruct (LimitedConn.waitN env k lc (len s)) as [[e|]|]; [| |done].
    { injection Hrun as <- <- <-. exists []. by rewrite app_nil_r. }
    destruct (LimitedConn.conn lc); [|done].
    destruct (LimitedConn.rawWrite env k s) as [w [e|]].
    + injection Hrun as <- <- <-. by exists [s].
    + apply IH in Hrun as (cs & -> & Hres). exists (s :: cs).
      split; [by rewrite <- app_assoc|].
      destruct err'; [done|]. cbn. by rewrite Hres.
  - injection Hrun as <- <- <-. exists []. rewrite app_nil_r. split; [done|].
    destruct b; [done|]. unfold len in Hlen. cbn in Hlen. lia.
Qed.

(** X19.  What [Write] reports: an error always comes with a count of
    zero, whatever was sent before it; and a nil error is returned only
    when all of [b], nothing more and nothing less, has been handed to
    the raw connection. *)
Theorem Write_result_discipline
    (env : LimitedConn.WriteEnv) (lc : LimitedConn.t) (fuel : nat) (b : list byte)
    (sent : list (list byte)) (n : Z) (err : option error) :
  LimitedConn.Write env lc fuel b = (sent, LimitedConn.Returned n err) ->
  match err with
  | Some _ => n = 0%Z
  | None => concat sent = b
  end.
Proof.
  unfold LimitedConn.Write. intros Hrun.
  by apply Write_loop_result in Hrun as (cs & -> & Hres).
Qed.

Lemma Write_result_discipline_witness :
  concat [[x01; x02]; [x03; x04]; [x05]]%byte = Samples.five_bytes.
Proof.
  apply (Write_result_discipline Samples.env_ok Samples.conn2 6 Samples.five_bytes
           [[x01; x02]; [x03; x04]; [x05]]%byte 5 None).
  reflexivity.
Defined.

(** ** LimitedConn.SetLimit *)

(** X20.  [LimitedConn.SetLimit] is idempotent: calling it again with the
    same rate changes neither the store of limiters nor the connection,
    also when the first call had to create the limiter. *)
Theorem SetLimit_idempotent (c : Z) (lc : LimitedConn.t) (h : rlimit.Store) :
  let r := LimitedConn.SetLimit c lc h in
  LimitedConn.SetLimit c r.2 r.1 = r.
Proof.
  unfold LimitedConn.SetLimit.
  destruct (LimitedConn.connLimiter lc) as [q|] eqn:Hq; cbn.
  - rewrite Hq. f_equal. unfold rlimit.SetLimit.
    rewrite list_alter_alter_eq. apply list_alter_ext; [|done].
    by intros [r b] _.
  - f_equal. unfold rlimit.SetLimit.
    rewrite list_alter_alter_eq. apply list_alter_ext; [|done].
    by intros [r b] _.
Qed.

(** ** The limiter shared by the registry and the caller *)

Lemma CloseConnection_loop_last (x : Z) (cs : list LimitedConn.t) (c : LimitedConn.t) :
  Forall (fun y => LimitedConn.id y <> x) cs ->
  LimitedConn.id c = x ->
  CloseConnection_loop x (cs ++ [c]) 0 (cs ++ [c]) = cs.
Proof.
  intros Hcs Hc.
  rewrite (CloseConnection_loop_first_match x _ _ 0 (length cs) c).
  - unfold remove_at. rewrite last_snoc. cbn.
    rewrite list_insert_id by apply list_lookup_middle, eq_refl.
    rewrite length_app. cbn.
    replace (length cs + 1 - 1) with (length cs) by lia.
    apply take_app_length.
  - by apply list_lookup_middle.
  - done.
  - intros j c' Hj Hc'. rewrite lookup_app_l in Hc' by done.
    rewrite Forall_lookup in Hcs. by apply (Hcs j c').
Qed.

(** X21.  The connection [Accept] returns and its registry entry point
    to one limiter object.  While the connection is registered,
    [SetLimits] sets the rate of that object, so the caller's copy sees
    the new rate; once [CloseConnection] has removed the entry, a later
    [SetLimits] leaves that limiter at its old rate. *)
Theorem SetLimits_reaches_registered_conn_only
    (g c : Z) (w : World) (rc : RawConn) (err : option error) :
  registered w ->
  Forall (fun x => LimitedConn.id x <> n_conns (ll w)) (conns (ll w)) ->
  let r := Accept (Some rc, err) w in
  let p := length (store w) in
  r.2.1 = AsLimitedConn
            (LimitedConn.mk (n_conns (ll w)) (Some rc) (globalLimiter (ll w))
               (Some p) (mtu (ll w))) /\
  store (SetLimits g c r.1) !! p
  = Some (rlimit.mkLimiter (rlimit.LimitOf c) (mtu (ll w))) /\
  exists w2,
    CloseConnection r.2.1 r.1 = Ok w2 /\
    store (SetLimits g c w2) !! p
    = Some (rlimit.mkLimiter (rlimit.LimitOf (connLimit (ll w))) (mtu (ll w))).
Proof.
  intros Hreg Hfresh r p.
  pose proof (Accept_registered (Some rc, err) w Hreg) as Hreg1.
  subst r. rewrite Accept_eq in *. cbn [fst snd] in *.
  set (w1 := mkWorld _ _ _) in *.
  assert (Hp1 : store w1 !! p = Some (rlimit.mkLimiter
                  (rlimit.LimitOf (connLimit (ll w))) (mtu (ll w))))
    by (by apply list_lookup_middle).
  split; [done|]. split.
  - destruct (SetLimits_lookup g c w1 Hreg1) as (G & base & _ & Hbase & _ & _ & ->).
    assert (Hb : base !! p = Some (rlimit.mkLimiter
                   (rlimit.LimitOf (connLimit (ll w))) (mtu (ll w)))).
    { destruct (globalLimiter (ll w1)); destruct Hbase as [_ ->];
        [done|by apply lookup_app_l_Some]. }
    rewrite Hb. destruct (decide (Some p ∈ _)) as [_|Hnot]; [done|].
    destruct Hnot. subst w1. cbn. rewrite fmap_app, elem_of_app. right. cbn. left.
  - unfold CloseConnection, LimitedConn.Close. cbn [LimitedConn.conn].
    eexists. split; [reflexivity|].
    set (w2 := mkWorld _ _ _).
    assert (Hcs2 : conns (ll w2) = conns (ll w)).
    { subst w2 w1. cbn. by apply CloseConnection_loop_last. }
    assert (Hreg2 : registered w2).
    { destruct Hreg as [Hg Hcs]. split.
      - intros G HG. subst w2 w1. cbn in *. rewrite length_app. specialize (Hg G HG). lia.
      - rewrite Hcs2. eapply Forall_impl; [exact Hcs|]. cbn.
        intros lc (q & ? & ? & ?). exists q. subst w2 w1. cbn. rewrite length_app.
        split; [done|]. split; [lia|done]. }
    destruct (SetLimits_lookup g c w2 Hreg2) as (G & base & _ & Hbase & _ & _ & ->).
    rewrite Hcs2.
    assert (Hb : base !! p = Some (rlimit.mkLimiter
                   (rlimit.LimitOf (connLimit (ll w))) (mtu (ll w))) /\ G <> p).
    { change (globalLimiter (ll w2)) with (globalLimiter (ll w)) in Hbase.
      change (store w2) with (store w1) in Hbase.
      destruct Hreg as [Hg _].
      destruct (globalLimiter (ll w)) as [G0|]; destruct Hbase as [-> ->].
      - split; [done|]. specialize (Hg G0 eq_refl). subst p. lia.
      - split; [by apply lookup_app_l_Some|].
        subst w1 p. cbn. rewrite length_app. cbn. lia. }
    destruct Hb as [-> HneG].
    destruct (decide (Some p ∈ _)) as [Hin|_].
    + apply list_elem_of_fmap in Hin as (lc & Hlc & Hin).
      destruct Hreg as [_ Hcs]. rewrite Forall_forall in Hcs.
      destruct (Hcs lc Hin) as (q & Hq & Hlt & _).
      assert (q = p) by congruence. subst p. lia.
    + destruct (decide (p = G)); [congruence|done].
Qed.

Lemma SetLimits_reaches_registered_conn_only_witness :
  store (SetLimits 20 7 (Accept (Some 9%nat, None) Samples.two_conns).1) !! 3%nat
  = Some (rlimit.mkLimiter (rlimit.LimitOf 7) 1024) /\
  exists w2,
    CloseConnection (Accept (Some 9%nat, None) Samples.two_conns).2.1
                    (Accept (Some 9%nat, None) Samples.two_conns).1 = Ok w2 /\
    store (SetLimits 20 7 w2) !! 3%nat
    = Some (rlimit.mkLimiter (rlimit.LimitOf 5) 1024).
Proof.
  destruct (SetLimits_reaches_registered_conn_only 20 7 Samples.two_conns 9%nat None)
    as (_ & Hset & Hclose).
  - split.
    + intros g [= <-]. cbn. lia.
    + repeat constructor; eexists; (split; [reflexivity|]);
        (split; [cbn; lia|discriminate]).
  - repeat constructor; discriminate.
  - split; [exact Hset|exact Hclose].
Defined.
